(** * mongo-queue: the retry queue of [lib/queue.js]

    A shallow embedding of [src/lib/queue.js]: the queue records, the
    document collection they live in, the promise chains of the module as
    a state-and-rejection monad over an explicit world, and the theorems
    that relate the module's behaviour to its specification. *)

From Stdlib Require Import ZArith List Bool String Floats Lia.
From Stdlib Require Import Sorted Permutation.
Import ListNotations.

Set Implicit Arguments.
Open Scope Z_scope.

(** ** Host values *)

(** JavaScript numbers are IEEE-754 doubles ([float]).  Counters and
    timestamps in milliseconds are integers held exactly by a double, and
    are kept in [Z]; [Z2F] is the (correctly rounded) injection used where
    the source mixes them with a fractional number. *)
Definition Z2F (z : Z) : float :=
  SF2Prim (binary_normalize prec emax z 0 false).

(** Truthiness of a number: [0], [-0] and [NaN] are falsy. *)
Definition truthy_number (x : float) : bool :=
  negb (PrimFloat.is_nan x || PrimFloat.is_zero x).

(** A [Date] object: a time value in milliseconds, or an Invalid Date. *)
Inductive Date :=
| DateMs (ms : Z)
| InvalidDate.

(** [new Date(v)] for a number [v]: the time value is clipped (not finite
    or beyond 8.64e15 ms gives an Invalid Date) and truncated toward zero. *)
Definition new_Date (v : float) : Date :=
  match Prim2SF v with
  | S754_zero _ => DateMs 0
  | S754_finite s m e =>
      let mag := if 0 <=? e then Z.shiftl (Zpos m) e
                 else Z.shiftr (Zpos m) (- e) in
      if 8640000000000000 <? mag then InvalidDate
      else DateMs (if s then - mag else mag)
  | S754_infinity _ | S754_nan => InvalidDate
  end.

(** [a <= new Date(now)] and [a > new Date(now)] on a field that may be
    absent: the operands are converted to numbers, [undefined] and an
    Invalid Date become [NaN], and every comparison with [NaN] is false. *)
Definition date_lte (a : option Date) (now : Z) : bool :=
  match a with
  | Some (DateMs t) => t <=? now
  | Some InvalidDate | None => false
  end.

Definition date_gt (a : option Date) (now : Z) : bool :=
  match a with
  | Some (DateMs t) => now <? t
  | Some InvalidDate | None => false
  end.

(** The values a hook can throw or reject with, as far as the module
    looks into them: [undefined]/[null], a primitive, or an [Error] object
    with its [stack]. *)
Inductive JsValue :=
| JsUndefined
| JsString (s : string)
| JsErrorObj (stack msg : string).

Definition nonempty (s : string) : bool := negb (String.eqb s "").

(** [(err && err.stack) || err] *)
Definition stack_or_self (err : JsValue) : JsValue :=
  match err with
  | JsErrorObj st _ => if nonempty st then JsString st else err
  | _ => err
  end.

(** ** The data model *)

Inductive STATUS_CODES :=
| received | processed | failed | skipped | notified | notifyFailure.

Definition status_eqb (a b : STATUS_CODES) : bool :=
  match a, b with
  | received, received | processed, processed | failed, failed
  | skipped, skipped | notified, notified | notifyFailure, notifyFailure => true
  | _, _ => false
  end.

(** The object a handler may return: its own enumerable keys and values. *)
Definition Info := list (string * string).

Record QueueRecord := mkRecord {
  _id : nat;
  status : STATUS_CODES;
  receivedDate : Z;
  available : option Date;
  processedDate : option Z;
  retryCount : option Z;
  failureReason : option JsValue;
  immediateFailure : option bool;
  additionalInfo : option Info;
  notifyFailureReason : option JsValue;
  resetDate : option Z;
  data : string
}.

(** Field updates, the [$set]/[$unset] of one field. *)
Definition with_status (v : STATUS_CODES) (r : QueueRecord) : QueueRecord :=
  mkRecord (_id r) v (receivedDate r) (available r) (processedDate r)
    (retryCount r) (failureReason r) (immediateFailure r) (additionalInfo r)
    (notifyFailureReason r) (resetDate r) (data r).

Definition with_receivedDate (v : Z) (r : QueueRecord) : QueueRecord :=
  mkRecord (_id r) (status r) v (available r) (processedDate r)
    (retryCount r) (failureReason r) (immediateFailure r) (additionalInfo r)
    (notifyFailureReason r) (resetDate r) (data r).

Definition with_available (v : option Date) (r : QueueRecord) : QueueRecord :=
  mkRecord (_id r) (status r) (receivedDate r) v (processedDate r)
    (retryCount r) (failureReason r) (immediateFailure r) (additionalInfo r)
    (notifyFailureReason r) (resetDate r) (data r).

Definition with_processedDate (v : option Z) (r : QueueRecord) : QueueRecord :=
  mkRecord (_id r) (status r) (receivedDate r) (available r) v
    (retryCount r) (failureReason r) (immediateFailure r) (additionalInfo r)
    (notifyFailureReason r) (resetDate r) (data r).

Definition with_retryCount (v : option Z) (r : QueueRecord) : QueueRecord :=
  mkRecord (_id r) (status r) (receivedDate r) (available r) (processedDate r)
    v (failureReason r) (immediateFailure r) (additionalInfo r)
    (notifyFailureReason r) (resetDate r) (data r).

Definition with_failureReason (v : option JsValue) (r : QueueRecord) : QueueRecord :=
  mkRecord (_id r) (status r) (receivedDate r) (available r) (processedDate r)
    (retryCount r) v (immediateFailure r) (additionalInfo r)
    (notifyFailureReason r) (resetDate r) (data r).

Definition with_immediateFailure (v : option bool) (r : QueueRecord) : QueueRecord :=
  mkRecord (_id r) (status r) (receivedDate r) (available r) (processedDate r)
    (retryCount r) (failureReason r) v (additionalInfo r)
    (notifyFailureReason r) (resetDate r) (data r).

Definition with_additionalInfo (v : option Info) (r : QueueRecord) : QueueRecord :=
  mkRecord (_id r) (status r) (receivedDate r) (available r) (processedDate r)
    (retryCount r) (failureReason r) (immediateFailure r) v
    (notifyFailureReason r) (resetDate r) (data r).

Definition with_notifyFailureReason (v : option JsValue) (r : QueueRecord) : QueueRecord :=
  mkRecord (_id r) (status r) (receivedDate r) (available r) (processedDate r)
    (retryCount r) (failureReason r) (immediateFailure r) (additionalInfo r)
    v (resetDate r) (data r).

Definition with_resetDate (v : option Z) (r : QueueRecord) : QueueRecord :=
  mkRecord (_id r) (status r) (receivedDate r) (available r) (processedDate r)
    (retryCount r) (failureReason r) (immediateFailure r) (additionalInfo r)
    (notifyFailureReason r) v (data r).

(** [$inc: { retryCount: 1 }]: an absent field counts from zero. *)
Definition inc_retryCount (r : QueueRecord) : QueueRecord :=
  with_retryCount
    (Some (match retryCount r with Some c => c + 1 | None => 1 end)) r.

(** [record.retryCount || 0] *)
Definition retryCount_or_0 (r : QueueRecord) : Z :=
  match retryCount r with Some c => c | None => 0 end.

(** ** Signals and rejections *)

(** What the [onProcess] handler can throw or reject with.  The skip and
    fail signals are built by [utils.skip]/[utils.fail]. *)
Inductive Thrown :=
| SkipSignal (delay : option float)
| FailSignal (reason : JsValue)
| OtherError (err : JsValue).

(** What a promise of the module can reject with: the module's private
    [STOP_PROCESSING] object, which no hook can get hold of, or a thrown
    value. *)
Inductive Rejection :=
| STOP_PROCESSING
| Raised (t : Thrown).

Definition is_STOP_PROCESSING (err : Rejection) : bool :=
  match err with STOP_PROCESSING => true | Raised _ => false end.

(** The sentinel seen as a value: [new Error('____stopProcessing____')]. *)
Definition value_of (err : Rejection) : JsValue :=
  match err with
  | STOP_PROCESSING =>
      JsErrorObj "Error: ____stopProcessing____" "____stopProcessing____"
  | Raised (SkipSignal _) => JsErrorObj "" "skip"
  | Raised (FailSignal _) => JsErrorObj "" "fail"
  | Raised (OtherError v) => v
  end.

(** Modelled from the spec: [utils.isSkip], [utils.isFail],
    [utils.getSkipBackoff] and [utils.getFailReason] of [lib/utils.js],
    which is not among the sources.  The skip and fail signals are
    recognised by their tag, a skip carries an optional delay in
    milliseconds that defaults to 0, a fail carries its reason. *)
Definition isSkip (err : Rejection) : bool :=
  match err with Raised (SkipSignal _) => true | _ => false end.

Definition isFail (err : Rejection) : bool :=
  match err with Raised (FailSignal _) => true | _ => false end.

Definition getSkipBackoff (err : Rejection) : float :=
  match err with
  | Raised (SkipSignal (Some d)) => d
  | _ => 0%float
  end.

Definition getFailReason (err : Rejection) : JsValue :=
  match err with
  | Raised (FailSignal reason) => reason
  | _ => JsUndefined
  end.

Inductive Settled (A : Type) :=
| Resolved (a : A)
| Rejected (err : Rejection).
Arguments Resolved {A} a.
Arguments Rejected {A} err.

(** ** The world of one queue instance *)

Inductive Event :=
| EvPreHook
| EvFind
| EvOnProcess (id : nat)
| EvOnFailure (id : option nat)
| EvUpdate (id : nat)
| EvInsert (id : nat)
| EvRemove.

(** The collection in its natural (insertion) order, the number of clock
    readings and of store calls made so far, and the calls made to the
    outside, oldest first. *)
Record World := mkWorld {
  store : list QueueRecord;
  reads : nat;
  calls : nat;
  trace : list Event
}.

(** The host: [Math.pow], the clock (its k-th reading, in milliseconds)
    and the store's failures (whether its k-th call rejects, and with
    what). *)
Record Host := mkHost {
  Math_pow : float -> float -> float;
  clock : nat -> Z;
  faults : nat -> option JsValue
}.

Inductive HandlerResult :=
| Returns (additionalInfo : option Info)
| Throws (t : Thrown).

Inductive HookResult :=
| HookDone
| HookFails (reason : JsValue).

(** The options of [module.exports = function(opts)].  A hook sees the
    world it is called in, and does not change it. *)
Record Opts := mkOpts {
  collectionName : string;
  batchSize : nat;
  maxRecordAge : Z;
  onProcess : World -> QueueRecord -> HandlerResult;
  onFailure : World -> option QueueRecord -> HookResult;
  onPreHook : option (World -> HookResult);
  retryLimit : Z;
  backoffMs : float;
  opts_backoffCoefficient : option float;
  continueProcessingOnError : bool
}.

(** ** Promises *)

Definition Promise (A : Type) : Type := World -> Settled A * World.

Definition resolve {A} (a : A) : Promise A := fun w => (Resolved a, w).

Definition reject {A} (err : Rejection) : Promise A :=
  fun w => (Rejected err, w).

Definition then_ {A B} (p : Promise A) (k : A -> Promise B) : Promise B :=
  fun w =>
    match p w with
    | (Resolved a, w1) => k a w1
    | (Rejected err, w1) => (Rejected err, w1)
    end.

Definition catch_ {A} (p : Promise A) (h : Rejection -> Promise A) : Promise A :=
  fun w =>
    match p w with
    | (Resolved a, w1) => (Resolved a, w1)
    | (Rejected err, w1) => h err w1
    end.

Declare Scope promise_scope.
Delimit Scope promise_scope with promise.
Notation "x <- p ;; k" := (then_ p (fun x => k))
  (at level 61, p at next level, right associativity) : promise_scope.
Notation "p ;; k" := (then_ p (fun _ => k))
  (at level 61, right associativity) : promise_scope.
Open Scope promise_scope.

(** [Promise.mapSeries]: one item at a time, in order; the first
    rejection ends the series. *)
Fixpoint mapSeries {A B} (f : A -> Promise B) (l : list A) : Promise (list B) :=
  match l with
  | [] => resolve []
  | x :: l' => y <- f x ;; ys <- mapSeries f l' ;; resolve (y :: ys)
  end.

Definition emit (e : Event) : Promise unit :=
  fun w => (Resolved tt,
            mkWorld (store w) (reads w) (calls w) (trace w ++ [e])).

Definition get_world : Promise World := fun w => (Resolved w, w).

Definition set_store (s : list QueueRecord) : Promise unit :=
  fun w => (Resolved tt, mkWorld s (reads w) (calls w) (trace w)).

(** ** The record store *)

(** The filters the module sends to the collection. *)
Inductive Query :=
| Q_id (id : nat)
| Q_id_in (ids : list nat)
| Q_status (s : STATUS_CODES)
| Q_status_in (ss : list STATUS_CODES)
| Q_available_lte (now : Z)
| Q_processedDate_lte (t : Z)
| Q_and (a b : Query)
| Q_or (a b : Query).

Definition opt_lte (a : option Z) (t : Z) : bool :=
  match a with Some x => x <=? t | None => false end.

Fixpoint matches (q : Query) (r : QueueRecord) : bool :=
  match q with
  | Q_id id => Nat.eqb (_id r) id
  | Q_id_in ids => existsb (Nat.eqb (_id r)) ids
  | Q_status s => status_eqb (status r) s
  | Q_status_in ss => existsb (status_eqb (status r)) ss
  | Q_available_lte now => date_lte (available r) now
  | Q_processedDate_lte t => opt_lte (processedDate r) t
  | Q_and a b => matches a r && matches b r
  | Q_or a b => matches a r || matches b r
  end.

(** [sort({ receivedDate: 1 })]: ascending, records with equal dates in
    their natural order. *)
Fixpoint insert_sorted (r : QueueRecord) (l : list QueueRecord) : list QueueRecord :=
  match l with
  | [] => [r]
  | x :: l' =>
      if receivedDate r <=? receivedDate x then r :: l
      else x :: insert_sorted r l'
  end.

Definition sort_receivedDate (l : list QueueRecord) : list QueueRecord :=
  fold_right insert_sorted [] l.

(** [limit(n)]: the first [n] documents; a limit of 0 is no limit. *)
Definition limit (n : nat) (l : list QueueRecord) : list QueueRecord :=
  match n with
  | O => l
  | S _ => firstn n l
  end.

(** [update(filter, modifier)] without [multi]: the first match only. *)
Fixpoint update_first (q : Query) (f : QueueRecord -> QueueRecord)
    (l : list QueueRecord) : list QueueRecord :=
  match l with
  | [] => []
  | x :: l' => if matches q x then f x :: l' else x :: update_first q f l'
  end.

(** [update(filter, modifier, { multi: true })]: every match. *)
Definition update_all (q : Query) (f : QueueRecord -> QueueRecord)
    (l : list QueueRecord) : list QueueRecord :=
  map (fun x => if matches q x then f x else x) l.

(** The identity the store gives a new document: one that no stored
    document carries. *)
Definition fresh_id (l : list QueueRecord) : nat :=
  S (list_max (map _id l)).

Definition count_matches (q : Query) (l : list QueueRecord) : nat :=
  List.length (filter (matches q) l).

(** ** The queue instance: [module.exports = function(opts) { ... }] *)

Section Queue.

Variable host : Host.
Variable opts : Opts.

(** [const backoffCoefficient = opts.backoffCoefficient || 1.5] *)
Definition backoffCoefficient : float :=
  match opts_backoffCoefficient opts with
  | Some c => if truthy_number c then c else 1.5%float
  | None => 1.5%float
  end.

(** [Date.now()], [new Date()]: the next reading of the clock. *)
Definition Date_now : Promise Z :=
  fun w => (Resolved (clock host (reads w)),
            mkWorld (store w) (S (reads w)) (calls w) (trace w)).

(** One call into the store: it rejects when the host says so. *)
Definition db_call : Promise unit :=
  fun w =>
    let w1 := mkWorld (store w) (reads w) (S (calls w)) (trace w) in
    match faults host (calls w) with
    | Some e => (Rejected (Raised (OtherError e)), w1)
    | None => (Resolved tt, w1)
    end.

Definition getCollection : Promise unit := db_call.

Definition collection_find_sort_limit (q : Query) (n : nat)
  : Promise (list QueueRecord) :=
  db_call ;; emit EvFind ;;
  w <- get_world ;;
  resolve (limit n (sort_receivedDate (filter (matches q) (store w)))).

Definition collection_findOne (q : Query) : Promise (option QueueRecord) :=
  db_call ;;
  w <- get_world ;;
  resolve (find (matches q) (store w)).

Definition collection_update (id : nat) (f : QueueRecord -> QueueRecord)
  : Promise unit :=
  db_call ;; emit (EvUpdate id) ;;
  w <- get_world ;;
  set_store (update_first (Q_id id) f (store w)).

Definition collection_update_multi (q : Query) (f : QueueRecord -> QueueRecord)
  : Promise nat :=
  db_call ;;
  w <- get_world ;;
  set_store (update_all q f (store w)) ;;
  resolve (count_matches q (store w)).

Definition collection_insert (mk : nat -> QueueRecord) : Promise QueueRecord :=
  db_call ;;
  fun w =>
    let doc := mk (fresh_id (store w)) in
    (Resolved doc,
     mkWorld (store w ++ [doc]) (reads w) (calls w)
       (trace w ++ [EvInsert (fresh_id (store w))])).

Definition collection_remove (q : Query) : Promise unit :=
  db_call ;; emit EvRemove ;;
  w <- get_world ;;
  set_store (filter (fun r => negb (matches q r)) (store w)).

(** Calling the handler: the call is recorded, the handler sees the
    world, and its result settles the promise. *)
Definition handler_outcome (record : QueueRecord) : Promise (option Info) :=
  w <- get_world ;;
  match onProcess opts w record with
  | Returns info => resolve info
  | Throws t => reject (Raised t)
  end.

Definition call_onProcess (record : QueueRecord) : Promise (option Info) :=
  emit (EvOnProcess (_id record)) ;; handler_outcome record.

Definition insertNewRecord (record : string) : Promise QueueRecord :=
  getCollection ;;
  d1 <- Date_now ;;
  d2 <- Date_now ;;
  collection_insert
    (fun id => mkRecord id received d1 (Some (DateMs d2)) None None None None
                 None None None record).

Definition enqueue (record : string) : Promise QueueRecord :=
  insertNewRecord record.

Definition recordHasFailed (record : QueueRecord) : bool :=
  (0 <=? retryLimit opts)
  && match retryCount record with
     | Some c => negb (c =? 0) && (retryLimit opts <=? c)
     | None => false
     end.

Definition getErrorBackoffMs (record : QueueRecord) : float :=
  let retryCount := retryCount_or_0 record in
  if retryCount =? retryLimit opts then 0%float
  else (Math_pow host (Z2F (retryCount + 1)) backoffCoefficient
        * backoffMs opts)%float.

(** [records.filter(function(record) { return record.available <= new Date(); })]:
    the callback reads the clock once per record, in order. *)
Fixpoint filter_available (records : list QueueRecord)
  : Promise (list QueueRecord) :=
  match records with
  | [] => resolve []
  | record :: rest =>
      now <- Date_now ;;
      kept <- filter_available rest ;;
      resolve (if date_lte (available record) now then record :: kept else kept)
  end.

Definition prioritizeRecords (records : list QueueRecord)
  : Promise (list QueueRecord) :=
  if continueProcessingOnError opts then resolve records
  else
    let firstFailed :=
      find (fun record => status_eqb (status record) failed) records in
    match firstFailed with
    | Some ff =>
        now <- Date_now ;;
        if date_gt (available ff) now then resolve []
        else filter_available records
    | None => filter_available records
    end.

Definition getNextBatch : Promise (list QueueRecord) :=
  now <- Date_now ;;
  let getUnprocessed :=
    Q_and (Q_status_in [received; failed; skipped]) (Q_available_lte now) in
  let query :=
    if continueProcessingOnError opts then getUnprocessed
    else Q_or (Q_status failed) getUnprocessed in
  getCollection ;;
  records <- collection_find_sort_limit query (batchSize opts) ;;
  prioritizeRecords records.

(** The modifiers of the four outcomes: the [$set], [$unset] and [$inc]
    of each update, applied to the stored document. *)
Definition success_modifier (now : Z) (info : option Info) (doc : QueueRecord)
  : QueueRecord :=
  with_available None (with_retryCount None (with_failureReason None
    (match info with
     | Some i => with_additionalInfo (Some i)
     | None => fun d => d
     end
       (with_processedDate (Some now) (with_status processed doc))))).

Definition failure_modifier (d1 d2 : Z) (delay : float) (reason : JsValue)
    (doc : QueueRecord) : QueueRecord :=
  inc_retryCount
    (with_available (Some (new_Date (Z2F d2 + delay)%float))
       (with_failureReason (Some reason)
          (with_processedDate (Some d1) (with_status failed doc)))).

Definition skip_modifier (d1 d2 : Z) (delay : float) (doc : QueueRecord)
  : QueueRecord :=
  with_available (Some (new_Date (Z2F d2 + delay)%float))
    (with_processedDate (Some d1) (with_status skipped doc)).

Definition immediate_modifier (reason : JsValue) (doc : QueueRecord)
  : QueueRecord :=
  with_failureReason (Some reason)
    (with_immediateFailure (Some true) (with_status failed doc)).

Definition notified_modifier (now : Z) (doc : QueueRecord) : QueueRecord :=
  with_status notified (with_processedDate (Some now) doc).

Definition notifyFailure_modifier (now : Z) (err : JsValue) (doc : QueueRecord)
  : QueueRecord :=
  with_notifyFailureReason (Some err)
    (with_status notifyFailure (with_processedDate (Some now) doc)).

Definition reset_modifier (d1 d2 d3 : Z) (doc : QueueRecord) : QueueRecord :=
  with_notifyFailureReason None (with_immediateFailure None
    (with_retryCount None (with_failureReason None
      (with_processedDate None
         (with_resetDate (Some d3) (with_available (Some (DateMs d2))
            (with_receivedDate d1 (with_status received doc)))))))).

Definition processSuccess (record : QueueRecord) : Promise unit :=
  getCollection ;;
  now <- Date_now ;;
  collection_update (_id record)
    (success_modifier now (additionalInfo record)).

Definition processFailure (record : QueueRecord) (err : Rejection)
  : Promise unit :=
  let delay := getErrorBackoffMs record in
  getCollection ;;
  d1 <- Date_now ;;
  d2 <- Date_now ;;
  collection_update (_id record)
    (failure_modifier d1 d2 delay (stack_or_self (value_of err))).

Definition processSkip (record : QueueRecord) (skipErr : Rejection)
  : Promise unit :=
  getCollection ;;
  d1 <- Date_now ;;
  d2 <- Date_now ;;
  collection_update (_id record)
    (skip_modifier d1 d2 (getSkipBackoff skipErr)).

Definition TypeError : JsValue :=
  JsErrorObj "TypeError: Cannot read property of undefined"
             "Cannot read property of undefined".

(** [record] is [null] when [failImmediately] did not find the record
    again; reading [record._id] then throws, as reading [reason.stack]
    does when the hook rejected with [undefined] or [null]. *)
Definition notifyFailedRecord (record : option QueueRecord) : Promise unit :=
  emit (EvOnFailure (option_map _id record)) ;;
  w <- get_world ;;
  let reflect := onFailure opts w record in
  now <- Date_now ;;
  update <-
    match reflect with
    | HookFails JsUndefined => reject (Raised (OtherError TypeError))
    | HookFails reason =>
        let err := stack_or_self reason in
        resolve (notifyFailure_modifier now err)
    | HookDone => resolve (notified_modifier now)
    end ;;
  getCollection ;;
  match record with
  | Some r => collection_update (_id r) update
  | None => reject (Raised (OtherError TypeError))
  end.

Definition failImmediately (record : QueueRecord) (err : Rejection)
  : Promise unit :=
  let reason := getFailReason err in
  getCollection ;;
  collection_update (_id record)
    (immediate_modifier (stack_or_self reason)) ;;
  updatedRecord <- collection_findOne (Q_id (_id record)) ;;
  notifyFailedRecord updatedRecord.

(** [additionalInfo && Object.keys(additionalInfo).length > 0] *)
Definition attach_additionalInfo (info : option Info) (record : QueueRecord)
  : QueueRecord :=
  match info with
  | Some (kv :: kvs) => with_additionalInfo (Some (kv :: kvs)) record
  | Some [] | None => record
  end.

(** The function given to [catch] in [processRecord].  It reads
    [record._id] and [record.retryCount] only, which
    [attach_additionalInfo] leaves as they are. *)
Definition on_rejection (record : QueueRecord) (err : Rejection)
  : Promise unit :=
  if isSkip err then processSkip record err
  else if isFail err then failImmediately record err
  else
    processFailure record err ;;
    if negb (continueProcessingOnError opts)
    then reject STOP_PROCESSING
    else resolve tt.

Definition processRecord (record : QueueRecord) : Promise unit :=
  if recordHasFailed record then notifyFailedRecord (Some record)
  else
    catch_
      (additionalInfo <- call_onProcess record ;;
       processSuccess (attach_additionalInfo additionalInfo record))
      (on_rejection record).

Definition call_onPreHook : Promise unit :=
  match onPreHook opts with
  | Some hook =>
      emit EvPreHook ;;
      w <- get_world ;;
      match hook w with
      | HookDone => resolve tt
      | HookFails reason => reject (Raised (OtherError reason))
      end
  | None => resolve tt
  end.

(** The chain of [processNextBatch] before its [catch]. *)
Definition batch_chain : Promise unit :=
  call_onPreHook ;;
  records <- getNextBatch ;;
  mapSeries processRecord records ;;
  resolve tt.

Definition processNextBatch : Promise unit :=
  catch_ batch_chain
    (fun err =>
       if negb (is_STOP_PROCESSING err) then reject err else resolve tt).

Definition cleanup : Promise unit :=
  getCollection ;;
  now <- Date_now ;;
  let minDate := now - maxRecordAge opts in
  collection_remove (Q_and (Q_status processed) (Q_processedDate_lte minDate)).

Definition resetRecords (recordIds : list nat) : Promise nat :=
  getCollection ;;
  d1 <- Date_now ;;
  d2 <- Date_now ;;
  d3 <- Date_now ;;
  collection_update_multi (Q_id_in recordIds) (reset_modifier d1 d2 d3).

End Queue.

(** ** One tick, step by step *)

(** [processNextBatch] yields to the event loop between its stages: the
    pre-hook, the selection, and each record of the batch.  [Tick] is the
    state of one invocation between two stages. *)
Inductive Tick :=
| TickPreHook
| TickSelect
| TickProcess (remaining : list QueueRecord)
| TickSettled (outcome : Settled unit).

Definition tick_settled (t : Tick) : bool :=
  match t with TickSettled _ => true | _ => false end.

Section Ticks.

Variable host : Host.
Variable opts : Opts.

(** The [catch] at the end of [processNextBatch]. *)
Definition settle (err : Rejection) : Tick :=
  TickSettled (if negb (is_STOP_PROCESSING err) then Rejected err
               else Resolved tt).

Definition tick_step (t : Tick) (w : World) : Tick * World :=
  match t with
  | TickPreHook =>
      match call_onPreHook opts w with
      | (Resolved _, w1) => (TickSelect, w1)
      | (Rejected err, w1) => (settle err, w1)
      end
  | TickSelect =>
      match getNextBatch host opts w with
      | (Resolved records, w1) => (TickProcess records, w1)
      | (Rejected err, w1) => (settle err, w1)
      end
  | TickProcess [] => (TickSettled (Resolved tt), w)
  | TickProcess (record :: rest) =>
      match processRecord host opts record w with
      | (Resolved _, w1) => (TickProcess rest, w1)
      | (Rejected err, w1) => (settle err, w1)
      end
  | TickSettled outcome => (TickSettled outcome, w)
  end.

Fixpoint tick_run (fuel : nat) (t : Tick) (w : World) : Tick * World :=
  match fuel with
  | O => (t, w)
  | S fuel' => let (t1, w1) := tick_step t w in tick_run fuel' t1 w1
  end.

(** *** The guard against overlapping ticks *)

(** Modelled from the spec: the state of the wrapper that suppresses
    re-entrancy of [processNextBatch].  The wrapper is not in
    [lib/queue.js], whose [processNextBatch] keeps no state between calls,
    and is not among the sources.  Following the spec, the instance owns a
    [running] flag, beside the world and the calls made so far. *)
Record Instance := mkInstance {
  world : World;
  running : bool;
  invocations : list Tick
}.

Inductive Action :=
| Invoke
| Advance (i : nat).

Fixpoint set_nth (i : nat) (t : Tick) (l : list Tick) : list Tick :=
  match l, i with
  | [], _ => []
  | _ :: l', O => t :: l'
  | x :: l', S i' => x :: set_nth i' t l'
  end.

(** Modelled from the spec: the guard of that wrapper.  A call made
    while the flag is set is a no-op that completes at once; any other
    call sets the flag and starts the tick of [lib/queue.js]; the flag is
    cleared when that tick settles.  Between two stages of a tick any
    other call may come in. *)
Definition guarded_step (a : Action) (s : Instance) : Instance :=
  match a with
  | Invoke =>
      if running s
      then mkInstance (world s) true
             (invocations s ++ [TickSettled (Resolved tt)])
      else mkInstance (world s) true (invocations s ++ [TickPreHook])
  | Advance i =>
      match nth_error (invocations s) i with
      | Some t =>
          if tick_settled t then s
          else
            let (t1, w1) := tick_step t (world s) in
            mkInstance w1 (if tick_settled t1 then false else running s)
              (set_nth i t1 (invocations s))
      | None => s
      end
  end.

Definition guarded_run (acts : list Action) (s : Instance) : Instance :=
  fold_left (fun s a => guarded_step a s) acts s.

(** The same scheduler over the bare [processNextBatch] of
    [lib/queue.js], where every call starts a tick. *)
Definition bare_step (a : Action) (s : Instance) : Instance :=
  match a with
  | Invoke => mkInstance (world s) true (invocations s ++ [TickPreHook])
  | Advance i =>
      match nth_error (invocations s) i with
      | Some t =>
          let (t1, w1) := tick_step t (world s) in
          mkInstance w1 (running s) (set_nth i t1 (invocations s))
      | None => s
      end
  end.

Definition bare_run (acts : list Action) (s : Instance) : Instance :=
  fold_left (fun s a => bare_step a s) acts s.

End Ticks.

(** ** The operations of an instance *)

(** What [module.exports] returns, as the calls a client can make. *)
Inductive Operation :=
| Enqueue (record : string)
| ProcessNextBatch
| Cleanup
| ResetRecords (recordIds : list nat).

Definition run_operation (host : Host) (opts : Opts) (op : Operation)
    (w : World) : World :=
  match op with
  | Enqueue record => snd (enqueue host record w)
  | ProcessNextBatch => snd (processNextBatch host opts w)
  | Cleanup => snd (cleanup host opts w)
  | ResetRecords recordIds => snd (resetRecords host recordIds w)
  end.

(** A history of calls, each one made when the one before has settled. *)
Definition run_operations (host : Host) (opts : Opts) (ops : list Operation)
    (w : World) : World :=
  fold_left (fun w op => run_operation host opts op w) ops w.

Definition unsettled (l : list Tick) : list Tick :=
  filter (fun t => negb (tick_settled t)) l.

(** ** Fixtures *)

Definition world0 : World := mkWorld [] 0 0 [].

Definition fresh_record (id : nat) (st : STATUS_CODES) (rd : Z)
    (av : option Date) (rc : option Z) : QueueRecord :=
  mkRecord id st rd av None rc None None None None None "payload".

(** A host for the examples: a clock that stands at 1000 ms, a store
    that never fails, and a power function that is right for the default
    coefficient 1.5 (x * sqrt x). *)
Definition host_1000 : Host :=
  mkHost (fun x _ => (x * PrimFloat.sqrt x)%float) (fun _ => 1000)
         (fun _ => None).

(** A host whose clock advances by ten seconds at every reading. *)
Definition host_ticking : Host :=
  mkHost (fun x _ => (x * PrimFloat.sqrt x)%float)
         (fun k => 1000 + 10000 * Z.of_nat k) (fun _ => None).

Definition opts_with (limit : Z) (strict : bool)
    (handler : QueueRecord -> HandlerResult) : Opts :=
  mkOpts "task" 10 86400000 (fun _ => handler) (fun _ _ => HookDone) None
    limit 1000%float None (negb strict).

Definition an_error : JsValue := JsErrorObj "Error: boom at handler" "boom".

Definition always_returns : QueueRecord -> HandlerResult :=
  fun _ => Returns None.

Definition always_throws : QueueRecord -> HandlerResult :=
  fun _ => Throws (OtherError an_error).

Definition world_of (s : list QueueRecord) : World :=
  mkWorld s 0 0 [].

Definition skips_500 : QueueRecord -> HandlerResult :=
  fun _ => Throws (SkipSignal (Some 500%float)).

Definition fails_for_good : QueueRecord -> HandlerResult :=
  fun _ => Throws (FailSignal (JsString "bad data")).

(** A record that failed once, five milliseconds into the epoch. *)
Definition failed_once : QueueRecord :=
  mkRecord 0 failed 5 (Some (DateMs 900)) (Some 400) (Some 1)
    (Some (JsString "Error: earlier")) None None None None "payload".

(** Three records for the selector, received at 1, 2 and 3 ms: [rec_A]
    failed and is available again, [rec_B] failed and is backed off until
    5000 ms, [rec_C] is new. *)
Definition rec_A : QueueRecord := fresh_record 0 failed 1 (Some (DateMs 900)) (Some 1).
Definition rec_B : QueueRecord := fresh_record 1 failed 2 (Some (DateMs 5000)) (Some 1).
Definition rec_C : QueueRecord := fresh_record 2 received 3 (Some (DateMs 900)) None.

(** A record that has used up its two retries. *)
Definition exhausted : QueueRecord :=
  mkRecord 0 failed 5 (Some (DateMs 900)) (Some 800) (Some 2)
    (Some (JsString "Error: earlier")) None None None None "payload".

(** * The vocabulary of the statements *)

(** The backoff as the specification writes it, over the four values it
    may depend on (and the host's power function). *)
Definition backoff_formula (pow : float -> float -> float)
    (r : Z) (b c : float) (limit : Z) : float :=
  if r =? limit then 0%float else (b * pow (Z2F (r + 1)) c)%float.

(** The world after [nreads] clock readings and [ncalls] store calls that
    left the store as [s] and made the outside calls [evs]. *)
Definition after (w : World) (nreads ncalls : nat) (s : list QueueRecord)
    (evs : list Event) : World :=
  mkWorld s (nreads + reads w) (ncalls + calls w) (trace w ++ evs).

(** A host whose store never fails, and one whose clock stands still. *)
Definition calm (host : Host) : Prop := forall k, faults host k = None.

Definition frozen (host : Host) (now : Z) : Prop := forall k, clock host k = now.

(** [emits P p]: running [p] only adds events that satisfy [P] to the
    trace, after the ones already there. *)
Definition emits {A} (P : Event -> Prop) (p : Promise A) : Prop :=
  forall w, exists evs, trace (snd (p w)) = trace w ++ evs /\ Forall P evs.

(** The events of the notifier and of the store updates. *)
Definition updates_and_notifies (e : Event) : Prop :=
  match e with
  | EvUpdate _ | EvOnFailure _ => True
  | _ => False
  end.

(** [keeps R p]: the store after [p] is related by [R] to the store
    before. *)
Definition keeps {A} (R : list QueueRecord -> list QueueRecord -> Prop)
    (p : Promise A) : Prop :=
  forall w, R (store w) (store (snd (p w))).

(** [findOne({ _id: id })] on a store. *)
Definition lookup (id : nat) (s : list QueueRecord) : option QueueRecord :=
  find (matches (Q_id id)) s.

(** A modifier never touches [_id]. *)
Definition keeps_id (f : QueueRecord -> QueueRecord) : Prop :=
  forall x, _id (f x) = _id x.

(** The world in which the handler is called on [record]. *)
Definition at_call (w : World) (record : QueueRecord) : World :=
  after w 0 0 (store w) [EvOnProcess (_id record)].

(** The retry count of every record of a store, by identity. *)
Definition retry_counts (s : list QueueRecord) : list (nat * option Z) :=
  map (fun r => (_id r, retryCount r)) s.

(** No record's retry count differs between [s] and [s']. *)
Definition same_retry_counts (s s' : list QueueRecord) : Prop :=
  retry_counts s' = retry_counts s.

(** A modifier that touches neither [_id] nor [retryCount]. *)
Definition keeps_retryCount (f : QueueRecord -> QueueRecord) : Prop :=
  forall x, (_id (f x), retryCount (f x)) = (_id x, retryCount x).

(** The order of [sort({ receivedDate: 1 })]. *)
Definition by_receivedDate (a b : QueueRecord) : Prop :=
  receivedDate a <= receivedDate b.

(** [record.status === STATUS_CODES.failed] *)
Definition is_failed (r : QueueRecord) : bool := status_eqb (status r) failed.

(** The eligibility query of the specification. *)
Definition eligible (now : Z) (r : QueueRecord) : bool :=
  existsb (status_eqb (status r)) [received; failed; skipped]
  && date_lte (available r) now.

(** [record.available <= now] *)
Definition available_by (now : Z) (r : QueueRecord) : bool :=
  date_lte (available r) now.

(** [records.find((record) => record.status === STATUS_CODES.failed)] *)
Definition first_failed (records : list QueueRecord) : option QueueRecord :=
  find is_failed records.

(** The world after [n] more readings of the clock. *)
Definition reads_more (n : nat) (w : World) : World :=
  mkWorld (store w) (n + reads w) (calls w) (trace w).

(** The batch that strict mode makes of the fetched records. *)
Definition strict_batch (now : Z) (records : list QueueRecord)
  : list QueueRecord :=
  match first_failed records with
  | Some ff =>
      if date_gt (available ff) now then []
      else filter (available_by now) records
  | None => filter (available_by now) records
  end.

(** The records strict mode fetches: those that failed, whatever their
    [available], and the eligible ones; in [receivedDate] order; at most
    [batchSize] of them. *)
Definition strict_fetch (opts : Opts) (now : Z) (s : list QueueRecord)
  : list QueueRecord :=
  limit (batchSize opts)
    (sort_receivedDate (filter (fun r => is_failed r || eligible now r) s)).

(** The same documents, by identity and position. *)
Definition same_ids (s s' : list QueueRecord) : Prop :=
  map _id s' = map _id s.

(** What the code keeps true of every stored record: a record that can
    still be selected carries an [available] date, a processed record
    carries none.  A notified record is left with whatever it had. *)
Definition wf_record (r : QueueRecord) : Prop :=
  match status r with
  | received | failed | skipped => available r <> None
  | processed => available r = None
  | notified | notifyFailure => True
  end.

(** A well-formed store: well-formed records under unique identities. *)
Definition store_ok (s : list QueueRecord) : Prop :=
  Forall wf_record s /\ NoDup (map _id s).

(** A modifier after which the document is well-formed whatever it was. *)
Definition settles (f : QueueRecord -> QueueRecord) : Prop :=
  keeps_id f /\ forall d, wf_record (f d).

(** All that processing the record [id] can do to the store. *)
Definition record_effect (id : nat) (s s' : list QueueRecord) : Prop :=
  s' = s
  \/ (exists f, settles f /\ s' = update_first (Q_id id) f s)
  \/ (exists reason, s' = update_first (Q_id id) (immediate_modifier reason) s)
  \/ (exists reason f,
        settles f
        /\ s' = update_first (Q_id id) f
                  (update_first (Q_id id) (immediate_modifier reason) s)).

(** The records of a batch, as the loop over them needs them: each one
    is a document of the store that carries an [available] date. *)
Definition batch_ready (records s : list QueueRecord) : Prop :=
  forall r, In r records ->
            forall d, In d s -> _id d = _id r -> available d <> None.

(** The store is left as it was. *)
Definition unchanged (s s' : list QueueRecord) : Prop := s' = s.

(** The flag is set exactly when one call is under way. *)
Definition guard_inv (s : Instance) : Prop :=
  (running s = false /\ unsettled (invocations s) = [])
  \/ (running s = true /\ exists t, unsettled (invocations s) = [t]).

(** The settled tick of a settled promise, through the final [catch]. *)
Definition tick_of {A} (r : Settled A) : Tick :=
  match r with
  | Resolved _ => TickSettled (Resolved tt)
  | Rejected err => settle err
  end.

(** The two statuses the notifier gives a record. *)
Definition terminal (r : QueueRecord) : Prop :=
  status r = notified \/ status r = notifyFailure.

(** A modifier that touches neither [_id] nor [available]. *)
Definition keeps_available (f : QueueRecord -> QueueRecord) : Prop :=
  forall x, _id (f x) = _id x /\ available (f x) = available x.

(** A modifier that keeps [_id] and gives a status other than the
    notifier's. *)
Definition not_notifying (f : QueueRecord -> QueueRecord) : Prop :=
  forall x, _id (f x) = _id x /\ ~ terminal (f x).

(** All that processing the record [id] can do to the store, as far as
    [available] and the notifier's statuses go: nothing, one or two
    writes that keep [available], or one write that does not notify. *)
Definition available_effect (id : nat) (s s' : list QueueRecord) : Prop :=
  s' = s
  \/ (exists f, keeps_available f /\ s' = update_first (Q_id id) f s)
  \/ (exists f g,
        keeps_available f /\ keeps_available g
        /\ s' = update_first (Q_id id) g (update_first (Q_id id) f s))
  \/ (exists f, not_notifying f /\ s' = update_first (Q_id id) f s).

(** * Theorems *)

(** ** The backoff calculator *)

(** IEEE-754 multiplication commutes. *)
Lemma float_mul_comm (x y : float) : (x * y = y * x)%float.
Proof.
  apply Prim2SF_inj. rewrite !FloatAxioms.mul_spec.
  unfold SF64mul, SFmul.
  destruct (Prim2SF x) as [sx|sx| |sx mx ex], (Prim2SF y) as [sy|sy| |sy my ey];
    try reflexivity; try (rewrite Bool.xorb_comm; reflexivity).
  rewrite Bool.xorb_comm, Pos.mul_comm, Z.add_comm. reflexivity.
Qed.

Lemma getErrorBackoffMs_formula (host : Host) (opts : Opts) (record : QueueRecord) :
  getErrorBackoffMs host opts record
  = backoff_formula (Math_pow host) (retryCount_or_0 record) (backoffMs opts)
      (backoffCoefficient opts) (retryLimit opts).
Proof.
  unfold getErrorBackoffMs, backoff_formula.
  destruct (retryCount_or_0 record =? retryLimit opts); [reflexivity|].
  apply float_mul_comm.
Qed.

(** C4: the backoff is a function of the record's retry count, the base
    delay, the coefficient and the retry limit alone; below the limit,
    and at every non-negative count when the limit is negative, it is
    [backoffMs * (r + 1) ^ backoffCoefficient] in double arithmetic, and at
    the limit it is 0. *)
Theorem getErrorBackoffMs_spec (host : Host) (opts : Opts)
    (record : QueueRecord) (r : Z) :
  retryCount_or_0 record = r ->
  0 <= r ->
  (forall (opts' : Opts) (record' : QueueRecord),
      retryCount_or_0 record' = r ->
      backoffMs opts' = backoffMs opts ->
      backoffCoefficient opts' = backoffCoefficient opts ->
      retryLimit opts' = retryLimit opts ->
      getErrorBackoffMs host opts' record' = getErrorBackoffMs host opts record)
  /\ (r < retryLimit opts \/ retryLimit opts < 0 ->
      getErrorBackoffMs host opts record
      = (backoffMs opts
         * Math_pow host (Z2F (r + 1)) (backoffCoefficient opts))%float)
  /\ (r = retryLimit opts -> getErrorBackoffMs host opts record = 0%float).
Proof.
  intros Hr Hpos. repeat split.
  - intros opts' record' Hr' Hb Hc Hl.
    rewrite !getErrorBackoffMs_formula. congruence.
  - intros Hlt. rewrite getErrorBackoffMs_formula, Hr. unfold backoff_formula.
    replace (r =? retryLimit opts) with false; [reflexivity|].
    symmetry. apply Z.eqb_neq. lia.
  - intros Heq. rewrite getErrorBackoffMs_formula, Hr. unfold backoff_formula.
    replace (r =? retryLimit opts) with true; [reflexivity|].
    symmetry. apply Z.eqb_eq. exact Heq.
Qed.

Lemma getErrorBackoffMs_spec_witness :
  getErrorBackoffMs host_1000 (opts_with 5 true (fun _ => Returns None))
    (fresh_record 0 failed 0 (Some (DateMs 0)) (Some 1))
  = (1000 * (Z2F 2 * PrimFloat.sqrt (Z2F 2)))%float.
Proof.
  refine (proj1 (proj2 (@getErrorBackoffMs_spec host_1000
            (opts_with 5 true (fun _ => Returns None))
            (fresh_record 0 failed 0 (Some (DateMs 0)) (Some 1)) 1 _ _)) _).
  - reflexivity.
  - lia.
  - left. simpl. lia.
Defined.

(** ** Running the promises *)

Lemma then_resolve {A B} (a : A) (k : A -> Promise B) :
  then_ (resolve a) k = k a.
Proof. reflexivity. Qed.

Lemma then_reject {A B} (err : Rejection) (k : A -> Promise B) :
  then_ (@reject A err) k = reject err.
Proof. reflexivity. Qed.

Ltac unfold_promise :=
  unfold then_, catch_, resolve, reject, emit, get_world, set_store,
    Date_now, getCollection, db_call.

Ltac run_calm H :=
  repeat (unfold_promise; simpl; rewrite ?H; simpl).

Section Running.

Variable host : Host.
Variable opts : Opts.
Hypothesis Hcalm : calm host.

Lemma collection_update_calm (id : nat) (f : QueueRecord -> QueueRecord) (w : World) :
  collection_update host id f w
  = (Resolved tt, after w 0 1 (update_first (Q_id id) f (store w)) [EvUpdate id]).
Proof. unfold collection_update, after. run_calm Hcalm. reflexivity. Qed.

Lemma processSkip_calm (record : QueueRecord) (err : Rejection) (w : World) :
  processSkip host record err w
  = (Resolved tt,
     after w 2 2
       (update_first (Q_id (_id record))
          (skip_modifier (clock host (reads w)) (clock host (S (reads w)))
             (getSkipBackoff err)) (store w))
       [EvUpdate (_id record)]).
Proof. unfold processSkip, collection_update, after. run_calm Hcalm. reflexivity. Qed.

Lemma processFailure_calm (record : QueueRecord) (err : Rejection) (w : World) :
  processFailure host opts record err w
  = (Resolved tt,
     after w 2 2
       (update_first (Q_id (_id record))
          (failure_modifier (clock host (reads w)) (clock host (S (reads w)))
             (getErrorBackoffMs host opts record)
             (stack_or_self (value_of err))) (store w))
       [EvUpdate (_id record)]).
Proof. unfold processFailure, collection_update, after. run_calm Hcalm. reflexivity. Qed.

Lemma processSuccess_calm (record : QueueRecord) (w : World) :
  processSuccess host record w
  = (Resolved tt,
     after w 1 2
       (update_first (Q_id (_id record))
          (success_modifier (clock host (reads w)) (additionalInfo record))
          (store w))
       [EvUpdate (_id record)]).
Proof. unfold processSuccess, collection_update, after. run_calm Hcalm. reflexivity. Qed.

End Running.

(** ** What a promise tells the outside *)

Section Emits.

Variable host : Host.
Variable opts : Opts.
Variable P : Event -> Prop.

Lemma emits_resolve {A} (a : A) : emits P (resolve a).
Proof. intros w. exists []. simpl. rewrite app_nil_r. auto. Qed.

Lemma emits_reject {A} (err : Rejection) : emits P (@reject A err).
Proof. intros w. exists []. simpl. rewrite app_nil_r. auto. Qed.

Lemma emits_then {A B} (p : Promise A) (k : A -> Promise B) :
  emits P p -> (forall a, emits P (k a)) -> emits P (then_ p k).
Proof.
  intros Hp Hk w. unfold then_. destruct (Hp w) as [e1 [H1 F1]].
  destruct (p w) as [[a|err] w1]; simpl in *.
  - destruct (Hk a w1) as [e2 [H2 F2]]. exists (e1 ++ e2).
    rewrite H2, H1, app_assoc. split; [reflexivity|]. apply Forall_app; auto.
  - exists e1. auto.
Qed.

Lemma emits_catch {A} (p : Promise A) (h : Rejection -> Promise A) :
  emits P p -> (forall err, emits P (h err)) -> emits P (catch_ p h).
Proof.
  intros Hp Hh w. unfold catch_. destruct (Hp w) as [e1 [H1 F1]].
  destruct (p w) as [[a|err] w1]; simpl in *.
  - exists e1. auto.
  - destruct (Hh err w1) as [e2 [H2 F2]]. exists (e1 ++ e2).
    rewrite H2, H1, app_assoc. split; [reflexivity|]. apply Forall_app; auto.
Qed.

Lemma emits_emit (e : Event) : P e -> emits P (emit e).
Proof. intros He w. exists [e]. simpl. auto. Qed.

Lemma emits_get_world : emits P get_world.
Proof. intros w. exists []. simpl. rewrite app_nil_r. auto. Qed.

Lemma emits_set_store (s : list QueueRecord) : emits P (set_store s).
Proof. intros w. exists []. simpl. rewrite app_nil_r. auto. Qed.

Lemma emits_Date_now : emits P (Date_now host).
Proof. intros w. exists []. simpl. rewrite app_nil_r. auto. Qed.

Lemma emits_db_call : emits P (db_call host).
Proof.
  intros w. exists []. unfold db_call.
  destruct (faults host (calls w)); simpl; rewrite app_nil_r; auto.
Qed.

Lemma emits_mapSeries {A B} (f : A -> Promise B) (l : list A) :
  (forall x, In x l -> emits P (f x)) -> emits P (mapSeries f l).
Proof.
  induction l as [|x l IH]; intros Hf; simpl.
  - apply emits_resolve.
  - apply emits_then; [apply Hf; left; reflexivity|]. intros y.
    apply emits_then; [apply IH; intros; apply Hf; right; assumption|].
    intros ys. apply emits_resolve.
Qed.

Create HintDb emits.
Hint Resolve emits_resolve emits_reject emits_emit emits_get_world
  emits_set_store emits_Date_now emits_db_call : emits.

Ltac emits_steps :=
  repeat match goal with
    | |- emits _ (then_ _ _) => apply emits_then; [|intro]
    | |- emits _ (catch_ _ _) => apply emits_catch; [|intro]
    | |- emits _ _ => solve [auto with emits]
    end.

Lemma emits_collection_update (id : nat) (f : QueueRecord -> QueueRecord) :
  P (EvUpdate id) -> emits P (collection_update host id f).
Proof. intros H. unfold collection_update. emits_steps. Qed.

Lemma emits_collection_findOne (q : Query) : emits P (collection_findOne host q).
Proof. unfold collection_findOne. emits_steps. Qed.

Lemma emits_processSuccess (record : QueueRecord) :
  P (EvUpdate (_id record)) -> emits P (processSuccess host record).
Proof.
  intros H. unfold processSuccess, getCollection. emits_steps.
  apply emits_collection_update; assumption.
Qed.

Lemma emits_processFailure (record : QueueRecord) (err : Rejection) :
  P (EvUpdate (_id record)) -> emits P (processFailure host opts record err).
Proof.
  intros H. unfold processFailure, getCollection. emits_steps.
  apply emits_collection_update; assumption.
Qed.

Lemma emits_processSkip (record : QueueRecord) (err : Rejection) :
  P (EvUpdate (_id record)) -> emits P (processSkip host record err).
Proof.
  intros H. unfold processSkip, getCollection. emits_steps.
  apply emits_collection_update; assumption.
Qed.

(** After the call to the hook, the notifier only updates. *)
Lemma emits_notifyFailedRecord (record : option QueueRecord) :
  P (EvOnFailure (option_map _id record)) ->
  (forall id, P (EvUpdate id)) ->
  emits P (notifyFailedRecord host opts record).
Proof.
  intros H1 H2. unfold notifyFailedRecord, getCollection. emits_steps.
  - destruct (onFailure opts a0 record) as [|[| |]]; auto with emits.
  - destruct record; [apply emits_collection_update; apply H2|auto with emits].
Qed.

Lemma emits_handler_outcome (record : QueueRecord) :
  emits P (handler_outcome opts record).
Proof.
  unfold handler_outcome. emits_steps.
  destruct (onProcess opts a record); auto with emits.
Qed.

Lemma emits_failImmediately (record : QueueRecord) (err : Rejection) :
  (forall id, P (EvOnFailure id)) ->
  (forall id, P (EvUpdate id)) ->
  emits P (failImmediately host opts record err).
Proof.
  intros H1 H2. unfold failImmediately, getCollection. emits_steps.
  - apply emits_collection_update; apply H2.
  - apply emits_collection_findOne.
  - apply emits_notifyFailedRecord; auto.
Qed.

Lemma emits_on_rejection (record : QueueRecord) (err : Rejection) :
  (forall id, P (EvOnFailure id)) ->
  (forall id, P (EvUpdate id)) ->
  emits P (on_rejection host opts record err).
Proof.
  intros H1 H2. unfold on_rejection.
  destruct (isSkip err); [apply emits_processSkip; apply H2|].
  destruct (isFail err); [apply emits_failImmediately; assumption|].
  apply emits_then; [apply emits_processFailure; apply H2|]. intros _.
  destruct (negb (continueProcessingOnError opts)); auto with emits.
Qed.

(** What follows the call to the handler only notifies and updates. *)
Lemma emits_after_onProcess (record : QueueRecord) :
  (forall id, P (EvOnFailure id)) ->
  (forall id, P (EvUpdate id)) ->
  emits P (catch_
             (then_ (handler_outcome opts record)
                (fun info =>
                   processSuccess host (attach_additionalInfo info record)))
             (on_rejection host opts record)).
Proof.
  intros H1 H2. apply emits_catch.
  - apply emits_then; [apply emits_handler_outcome|]. intros info.
    apply emits_processSuccess. apply H2.
  - intros err. apply emits_on_rejection; assumption.
Qed.

End Emits.

(** ** Retry exhaustion *)

Section Exhaustion.

Variable host : Host.
Variable opts : Opts.

Lemma recordHasFailed_true (record : QueueRecord) (c : Z) :
  0 <= retryLimit opts -> retryCount record = Some c -> c <> 0 ->
  retryLimit opts <= c -> recordHasFailed opts record = true.
Proof.
  intros Hl Hc Hnz Hge. unfold recordHasFailed. rewrite Hc.
  apply andb_true_iff. split; [apply Z.leb_le; assumption|].
  apply andb_true_iff. split.
  - apply negb_true_iff, Z.eqb_neq. assumption.
  - apply Z.leb_le. assumption.
Qed.

Lemma recordHasFailed_zero (record : QueueRecord) :
  retryCount_or_0 record = 0 -> recordHasFailed opts record = false.
Proof.
  unfold recordHasFailed, retryCount_or_0. intros H.
  destruct (retryCount record) as [c|].
  - subst c. simpl. apply andb_false_r.
  - apply andb_false_r.
Qed.

(** A record that is not exhausted is handed to the handler first. *)
Lemma processRecord_attempt (record : QueueRecord) (w : World) :
  recordHasFailed opts record = false ->
  processRecord host opts record w
  = catch_
      (then_ (handler_outcome opts record)
         (fun info => processSuccess host (attach_additionalInfo info record)))
      (on_rejection host opts record)
      (after w 0 0 (store w) [EvOnProcess (_id record)]).
Proof. intros H. unfold processRecord. rewrite H. reflexivity. Qed.

(** An exhausted record goes to the notifier, whose first act is the
    call to the hook. *)
Lemma notifyFailedRecord_trace (record : QueueRecord) (w : World) :
  exists evs,
    trace (snd (notifyFailedRecord host opts (Some record) w))
    = trace w ++ EvOnFailure (Some (_id record)) :: evs
    /\ Forall (fun e => exists id, e = EvUpdate id) evs.
Proof.
  pose (P := fun e : Event => exists id, e = EvUpdate id).
  assert (HP : forall id, P (EvUpdate id)) by (intros id; exists id; reflexivity).
  assert (Hk : emits P
            (w0 <- get_world ;;
             now <- Date_now host ;;
             update <-
               match onFailure opts w0 (Some record) with
               | HookFails JsUndefined => reject (Raised (OtherError TypeError))
               | HookFails reason =>
                   resolve (notifyFailure_modifier now (stack_or_self reason))
               | HookDone => resolve (notified_modifier now)
               end ;;
             getCollection host ;;
             collection_update host (_id record) update)).
  { apply emits_then; [apply emits_get_world|]. intros w0.
    apply emits_then; [apply emits_Date_now|]. intros now.
    apply emits_then.
    - destruct (onFailure opts w0 (Some record)) as [|[| |]];
        first [apply emits_resolve | apply emits_reject].
    - intros upd. apply emits_then; [apply emits_db_call|]. intros _.
      apply emits_collection_update. apply HP. }
  destruct (Hk (after w 0 0 (store w) [EvOnFailure (Some (_id record))]))
    as [evs [Ht Hf]].
  exists evs. split; [|exact Hf].
  simpl in Ht. rewrite <- app_assoc in Ht. exact Ht.
Qed.

(** C2, as the code has it: a record whose retry count is present, not
    zero and at least a non-negative retry limit goes to the notifier
    without a call to the handler; a record whose retry count is zero or
    absent is handed to the handler first, whatever the limit. *)
Theorem processRecord_exhausted (record : QueueRecord) (w : World) :
  (forall c : Z,
      0 <= retryLimit opts -> retryCount record = Some c -> c <> 0 ->
      retryLimit opts <= c ->
      processRecord host opts record w
      = notifyFailedRecord host opts (Some record) w
      /\ exists evs,
          trace (snd (processRecord host opts record w))
          = trace w ++ EvOnFailure (Some (_id record)) :: evs
          /\ Forall (fun e => exists id, e = EvUpdate id) evs)
  /\ (retryCount_or_0 record = 0 ->
      exists evs,
        trace (snd (processRecord host opts record w))
        = trace w ++ EvOnProcess (_id record) :: evs
        /\ Forall updates_and_notifies evs).
Proof.
  split.
  - intros c Hl Hc Hnz Hge.
    assert (E : processRecord host opts record w
                = notifyFailedRecord host opts (Some record) w).
    { unfold processRecord.
      rewrite (recordHasFailed_true record Hl Hc Hnz Hge). reflexivity. }
    split; [exact E|]. rewrite E. apply notifyFailedRecord_trace.
  - intros H0. rewrite (processRecord_attempt record w (recordHasFailed_zero record H0)).
    destruct (@emits_after_onProcess host opts updates_and_notifies record
                (fun _ => I) (fun _ => I)
                (after w 0 0 (store w) [EvOnProcess (_id record)]))
      as [evs [Ht Hf]].
    exists evs. split; [|exact Hf].
    rewrite Ht. simpl. rewrite <- app_assoc. reflexivity.
Qed.

End Exhaustion.

Lemma processRecord_exhausted_witness :
  processRecord host_1000 (opts_with 2 true always_throws)
    (fresh_record 0 failed 5 (Some (DateMs 900)) (Some 2))
    (world_of [fresh_record 0 failed 5 (Some (DateMs 900)) (Some 2)])
  = notifyFailedRecord host_1000 (opts_with 2 true always_throws)
      (Some (fresh_record 0 failed 5 (Some (DateMs 900)) (Some 2)))
      (world_of [fresh_record 0 failed 5 (Some (DateMs 900)) (Some 2)]).
Proof.
  refine (proj1 (proj1 (@processRecord_exhausted host_1000
            (opts_with 2 true always_throws)
            (fresh_record 0 failed 5 (Some (DateMs 900)) (Some 2))
            (world_of [fresh_record 0 failed 5 (Some (DateMs 900)) (Some 2)]))
          2 _ _ _ _)).
  - apply Z.leb_le; reflexivity.
  - reflexivity.
  - lia.
  - apply Z.leb_le; reflexivity.
Defined.

(** With [retryLimit = 0] a new record (no [retryCount], or a zero one)
    has [retryCount >= retryLimit], and its handler is called all the
    same; the notifier is not. *)
Lemma exhausted_at_zero_counterexample :
  0 <= retryLimit (opts_with 0 true always_returns)
  /\ retryLimit (opts_with 0 true always_returns)
     <= retryCount_or_0 (fresh_record 0 received 5 (Some (DateMs 900)) None)
  /\ trace (snd (processRecord host_1000 (opts_with 0 true always_returns)
                   (fresh_record 0 received 5 (Some (DateMs 900)) None)
                   (world_of [fresh_record 0 received 5 (Some (DateMs 900)) None])))
     = [EvOnProcess 0; EvUpdate 0]
  /\ trace (snd (processRecord host_1000 (opts_with 0 true always_returns)
                   (fresh_record 0 received 5 (Some (DateMs 900)) (Some 0))
                   (world_of [fresh_record 0 received 5 (Some (DateMs 900)) (Some 0)])))
     = [EvOnProcess 0; EvUpdate 0].
Proof.
  split; [apply Z.leb_le; reflexivity|].
  split; [apply Z.leb_le; reflexivity|].
  split; vm_compute; reflexivity.
Qed.

(** ** The delay of the last retry *)

(** C5 at [retryLimit = 2] and a record that has failed once: this
    failure brings its retry count to the limit, and the delay is not 0 but
    the full backoff [2 ^ 1.5 * 1000] ms; the record is next available
    2828 ms after the failure.  The delay is 0 only when the count before
    the failure equals the limit. *)
Lemma getErrorBackoffMs_last_retry :
  retryCount_or_0 (fresh_record 0 failed 5 (Some (DateMs 900)) (Some 1)) + 1
  = retryLimit (opts_with 2 true always_throws)
  /\ PrimFloat.ltb 2828
       (getErrorBackoffMs host_1000 (opts_with 2 true always_throws)
          (fresh_record 0 failed 5 (Some (DateMs 900)) (Some 1))) = true
  /\ map (fun r => (status r, processedDate r, available r, retryCount r))
       (store (snd (processRecord host_1000 (opts_with 2 true always_throws)
                      (fresh_record 0 failed 5 (Some (DateMs 900)) (Some 1))
                      (world_of [fresh_record 0 failed 5 (Some (DateMs 900)) (Some 1)]))))
     = [(failed, Some 1000, Some (DateMs 3828), Some 2)].
Proof.
  split; [reflexivity|]. split; vm_compute; reflexivity.
Qed.

(** ** What a promise does to the store *)

Section Keeps.

Variable host : Host.
Variable opts : Opts.
Variable R : list QueueRecord -> list QueueRecord -> Prop.
Variable good : (QueueRecord -> QueueRecord) -> Prop.
Hypothesis R_refl : forall s, R s s.
Hypothesis R_trans : forall s1 s2 s3, R s1 s2 -> R s2 s3 -> R s1 s3.
Hypothesis R_update :
  forall id f, good f -> forall s, R s (update_first (Q_id id) f s).

Lemma keeps_resolve {A} (a : A) : keeps R (resolve a).
Proof. intros w. apply R_refl. Qed.

Lemma keeps_reject {A} (err : Rejection) : keeps R (@reject A err).
Proof. intros w. apply R_refl. Qed.

Lemma keeps_then {A B} (p : Promise A) (k : A -> Promise B) :
  keeps R p -> (forall a, keeps R (k a)) -> keeps R (then_ p k).
Proof.
  intros Hp Hk w. unfold then_. specialize (Hp w).
  destruct (p w) as [[a|err] w1]; simpl in *.
  - eapply R_trans; [exact Hp|apply Hk].
  - exact Hp.
Qed.

Lemma keeps_catch {A} (p : Promise A) (h : Rejection -> Promise A) :
  keeps R p -> (forall err, keeps R (h err)) -> keeps R (catch_ p h).
Proof.
  intros Hp Hh w. unfold catch_. specialize (Hp w).
  destruct (p w) as [[a|err] w1]; simpl in *.
  - exact Hp.
  - eapply R_trans; [exact Hp|apply Hh].
Qed.

Lemma keeps_emit (e : Event) : keeps R (emit e).
Proof. intros w. apply R_refl. Qed.

Lemma keeps_get_world : keeps R get_world.
Proof. intros w. apply R_refl. Qed.

Lemma keeps_Date_now : keeps R (Date_now host).
Proof. intros w. apply R_refl. Qed.

Lemma keeps_db_call : keeps R (db_call host).
Proof.
  intros w. unfold db_call. destruct (faults host (calls w)); apply R_refl.
Qed.

Lemma keeps_mapSeries {A B} (f : A -> Promise B) (l : list A) :
  (forall x, In x l -> keeps R (f x)) -> keeps R (mapSeries f l).
Proof.
  induction l as [|x l IH]; intros Hf; simpl.
  - apply keeps_resolve.
  - apply keeps_then; [apply Hf; left; reflexivity|]. intros y.
    apply keeps_then; [apply IH; intros; apply Hf; right; assumption|].
    intros ys. apply keeps_resolve.
Qed.

Create HintDb keeps.
Hint Resolve keeps_resolve keeps_reject keeps_emit keeps_get_world
  keeps_Date_now keeps_db_call : keeps.

Ltac keeps_steps :=
  repeat match goal with
    | |- keeps _ (then_ _ _) => apply keeps_then; [|intro]
    | |- keeps _ (catch_ _ _) => apply keeps_catch; [|intro]
    | |- keeps _ _ => solve [auto with keeps]
    end.

Lemma keeps_collection_update (id : nat) (f : QueueRecord -> QueueRecord) :
  good f -> keeps R (collection_update host id f).
Proof.
  intros Hf w. unfold collection_update. unfold_promise.
  destruct (faults host (calls w)); simpl; [apply R_refl|].
  apply R_update. exact Hf.
Qed.

Lemma keeps_collection_findOne (q : Query) : keeps R (collection_findOne host q).
Proof. unfold collection_findOne. keeps_steps. Qed.

Lemma keeps_collection_find (q : Query) (n : nat) :
  keeps R (collection_find_sort_limit host q n).
Proof. unfold collection_find_sort_limit. keeps_steps. Qed.

Lemma keeps_processSuccess (record : QueueRecord) :
  (forall now, good (success_modifier now (additionalInfo record))) ->
  keeps R (processSuccess host record).
Proof.
  intros H. unfold processSuccess, getCollection. keeps_steps.
  apply keeps_collection_update. apply H.
Qed.

Lemma keeps_processFailure (record : QueueRecord) (err : Rejection) :
  (forall d1 d2 delay reason, good (failure_modifier d1 d2 delay reason)) ->
  keeps R (processFailure host opts record err).
Proof.
  intros H. unfold processFailure, getCollection. keeps_steps.
  apply keeps_collection_update. apply H.
Qed.

Lemma keeps_processSkip (record : QueueRecord) (err : Rejection) :
  (forall d1 d2 delay, good (skip_modifier d1 d2 delay)) ->
  keeps R (processSkip host record err).
Proof.
  intros H. unfold processSkip, getCollection. keeps_steps.
  apply keeps_collection_update. apply H.
Qed.

Lemma keeps_notifyFailedRecord (record : option QueueRecord) :
  (forall now, good (notified_modifier now)) ->
  (forall now err, good (notifyFailure_modifier now err)) ->
  keeps R (notifyFailedRecord host opts record).
Proof.
  intros H1 H2. unfold notifyFailedRecord, getCollection.
  apply keeps_then; [auto with keeps|]. intros _.
  apply keeps_then; [auto with keeps|]. intros w0.
  apply keeps_then; [auto with keeps|]. intros now.
  destruct (onFailure opts w0 record) as [|[| |]];
    rewrite ?then_resolve, ?then_reject; keeps_steps;
    (destruct record; [apply keeps_collection_update; auto|auto with keeps]).
Qed.

Lemma keeps_failImmediately (record : QueueRecord) (err : Rejection) :
  (forall reason, good (immediate_modifier reason)) ->
  (forall now, good (notified_modifier now)) ->
  (forall now e, good (notifyFailure_modifier now e)) ->
  keeps R (failImmediately host opts record err).
Proof.
  intros H1 H2 H3. unfold failImmediately, getCollection. keeps_steps.
  - apply keeps_collection_update. apply H1.
  - apply keeps_collection_findOne.
  - apply keeps_notifyFailedRecord; assumption.
Qed.

Lemma keeps_handler_outcome (record : QueueRecord) :
  keeps R (handler_outcome opts record).
Proof.
  unfold handler_outcome. keeps_steps.
  destruct (onProcess opts a record); auto with keeps.
Qed.

Lemma keeps_filter_available (records : list QueueRecord) :
  keeps R (filter_available host records).
Proof.
  induction records as [|r l IH]; simpl; keeps_steps.
Qed.

Lemma keeps_getNextBatch : keeps R (getNextBatch host opts).
Proof.
  unfold getNextBatch, getCollection. keeps_steps.
  - apply keeps_collection_find.
  - unfold prioritizeRecords.
    destruct (continueProcessingOnError opts); [auto with keeps|].
    destruct (find _ a1).
    + keeps_steps.
      destruct (date_gt _ _); [auto with keeps|apply keeps_filter_available].
    + apply keeps_filter_available.
Qed.

Lemma keeps_call_onPreHook : keeps R (call_onPreHook opts).
Proof.
  unfold call_onPreHook. destruct (onPreHook opts) as [hook|]; keeps_steps.
  destruct (hook a0); auto with keeps.
Qed.

End Keeps.

(** ** Looking a record up by its identity *)

Lemma lookup_update_same (id : nat) (f : QueueRecord -> QueueRecord)
    (s : list QueueRecord) :
  keeps_id f ->
  lookup id (update_first (Q_id id) f s) = option_map f (lookup id s).
Proof.
  intros Hf. unfold lookup. induction s as [|x s IH]; simpl; [reflexivity|].
  destruct (Nat.eqb (_id x) id) eqn:E; simpl.
  - rewrite Hf, E. reflexivity.
  - rewrite E. exact IH.
Qed.

Lemma lookup_update_other (id j : nat) (f : QueueRecord -> QueueRecord)
    (s : list QueueRecord) :
  keeps_id f -> j <> id ->
  lookup j (update_first (Q_id id) f s) = lookup j s.
Proof.
  intros Hf Hj. unfold lookup. induction s as [|x s IH]; simpl; [reflexivity|].
  destruct (Nat.eqb (_id x) id) eqn:E; simpl.
  - rewrite Hf. apply Nat.eqb_eq in E.
    replace (Nat.eqb (_id x) j) with false; [reflexivity|].
    symmetry. apply Nat.eqb_neq. congruence.
  - destruct (Nat.eqb (_id x) j); [reflexivity|exact IH].
Qed.

Lemma map_update_first {B} (g : QueueRecord -> B) (q : Query)
    (f : QueueRecord -> QueueRecord) (s : list QueueRecord) :
  (forall x, g (f x) = g x) -> map g (update_first q f s) = map g s.
Proof.
  intros Hf. induction s as [|x s IH]; simpl; [reflexivity|].
  destruct (matches q x); simpl; [rewrite Hf|rewrite IH]; reflexivity.
Qed.

Lemma lookup_map {B} (g : QueueRecord -> B) (id : nat)
    (s s' : list QueueRecord) :
  map (fun r => (_id r, g r)) s' = map (fun r => (_id r, g r)) s ->
  option_map g (lookup id s') = option_map g (lookup id s).
Proof.
  unfold lookup. revert s'.
  induction s as [|x s IH]; intros [|x' s'] H; simpl in *; try discriminate;
    [reflexivity|].
  injection H as Hid Hg Hrest. rewrite Hid.
  destruct (Nat.eqb (_id x) id); simpl; [rewrite Hg; reflexivity|].
  apply IH. exact Hrest.
Qed.

Lemma keeps_id_success now info : keeps_id (success_modifier now info).
Proof. intros x. destruct info; reflexivity. Qed.

Lemma keeps_id_failure d1 d2 delay reason :
  keeps_id (failure_modifier d1 d2 delay reason).
Proof. intros x. reflexivity. Qed.

Lemma keeps_id_skip d1 d2 delay : keeps_id (skip_modifier d1 d2 delay).
Proof. intros x. reflexivity. Qed.

Lemma keeps_id_immediate reason : keeps_id (immediate_modifier reason).
Proof. intros x. reflexivity. Qed.

Lemma keeps_id_notified now : keeps_id (notified_modifier now).
Proof. intros x. reflexivity. Qed.

Lemma keeps_id_notifyFailure now err : keeps_id (notifyFailure_modifier now err).
Proof. intros x. reflexivity. Qed.

(** ** The outcomes of one record, when the store does not fail *)

Section Outcomes.

Variable host : Host.
Variable opts : Opts.
Hypothesis Hcalm : calm host.

Variable record : QueueRecord.
Variable w : World.
Hypothesis Hfresh : recordHasFailed opts record = false.

Lemma processRecord_skip (d : option float) :
  onProcess opts (at_call w record) record = Throws (SkipSignal d) ->
  processRecord host opts record w
  = (Resolved tt,
     after w 2 2
       (update_first (Q_id (_id record))
          (skip_modifier (clock host (reads w)) (clock host (S (reads w)))
             (getSkipBackoff (Raised (SkipSignal d)))) (store w))
       [EvOnProcess (_id record); EvUpdate (_id record)]).
Proof.
  intros H. rewrite (@processRecord_attempt host opts record w Hfresh).
  unfold catch_, then_ at 1, handler_outcome, then_ at 1, get_world.
  fold (at_call w record). rewrite H. simpl.
  unfold on_rejection. simpl. rewrite processSkip_calm by exact Hcalm.
  unfold after. simpl. rewrite <- app_assoc. reflexivity.
Qed.

Lemma processRecord_failure (err : JsValue) :
  onProcess opts (at_call w record) record = Throws (OtherError err) ->
  processRecord host opts record w
  = (if negb (continueProcessingOnError opts)
     then Rejected STOP_PROCESSING else Resolved tt,
     after w 2 2
       (update_first (Q_id (_id record))
          (failure_modifier (clock host (reads w)) (clock host (S (reads w)))
             (getErrorBackoffMs host opts record) (stack_or_self err))
          (store w))
       [EvOnProcess (_id record); EvUpdate (_id record)]).
Proof.
  intros H. rewrite (@processRecord_attempt host opts record w Hfresh).
  unfold catch_, then_ at 1, handler_outcome, then_ at 1, get_world.
  fold (at_call w record). rewrite H. simpl.
  unfold on_rejection. simpl. unfold then_ at 1.
  rewrite processFailure_calm by exact Hcalm.
  unfold after. simpl. rewrite <- app_assoc.
  destruct (continueProcessingOnError opts); reflexivity.
Qed.

Lemma processRecord_success (info : option Info) :
  onProcess opts (at_call w record) record = Returns info ->
  processRecord host opts record w
  = (Resolved tt,
     after w 1 2
       (update_first (Q_id (_id record))
          (success_modifier (clock host (reads w))
             (additionalInfo (attach_additionalInfo info record)))
          (store w))
       [EvOnProcess (_id record); EvUpdate (_id record)]).
Proof.
  intros H. rewrite (@processRecord_attempt host opts record w Hfresh).
  unfold catch_, then_ at 1, handler_outcome, then_ at 1, get_world.
  fold (at_call w record). rewrite H. simpl.
  rewrite processSuccess_calm by exact Hcalm.
  unfold after. simpl. rewrite <- app_assoc.
  replace (_id (attach_additionalInfo info record)) with (_id record);
    [reflexivity|].
  destruct info as [[|kv kvs]|]; reflexivity.
Qed.

End Outcomes.

(** ** Skip *)

(** C8: when the handler signals a skip with delay [d] (0 when none is
    given), the stored record gets status [skipped], [processedDate = now]
    and [available = new Date(now + d)]; every other field of it, the
    retry count among them, and every other record stay as they were. *)
Theorem processRecord_skip_frame (host : Host) (opts : Opts) (now : Z)
    (record doc : QueueRecord) (d : option float) (w : World) :
  calm host -> frozen host now ->
  recordHasFailed opts record = false ->
  onProcess opts (at_call w record) record = Throws (SkipSignal d) ->
  lookup (_id record) (store w) = Some doc ->
  fst (processRecord host opts record w) = Resolved tt
  /\ (exists doc',
        lookup (_id record) (store (snd (processRecord host opts record w)))
        = Some doc'
        /\ status doc' = skipped
        /\ processedDate doc' = Some now
        /\ available doc'
           = Some (new_Date (Z2F now
                             + match d with Some x => x | None => 0 end)%float)
        /\ _id doc' = _id doc
        /\ receivedDate doc' = receivedDate doc
        /\ retryCount doc' = retryCount doc
        /\ failureReason doc' = failureReason doc
        /\ immediateFailure doc' = immediateFailure doc
        /\ additionalInfo doc' = additionalInfo doc
        /\ notifyFailureReason doc' = notifyFailureReason doc
        /\ resetDate doc' = resetDate doc
        /\ data doc' = data doc)
  /\ (forall j, j <> _id record ->
        lookup j (store (snd (processRecord host opts record w)))
        = lookup j (store w)).
Proof.
  intros Hcalm Hfrozen Hfresh Hskip Hdoc.
  rewrite (@processRecord_skip host opts Hcalm record w Hfresh d Hskip). simpl.
  rewrite !Hfrozen.
  split; [reflexivity|]. split.
  - rewrite lookup_update_same by apply keeps_id_skip. rewrite Hdoc. simpl.
    eexists. split; [reflexivity|].
    destruct d; simpl; repeat split; reflexivity.
  - intros j Hj. apply lookup_update_other; [apply keeps_id_skip|exact Hj].
Qed.

Lemma processRecord_skip_frame_witness :
  fst (processRecord host_1000 (opts_with 5 true skips_500) failed_once
         (world_of [failed_once])) = Resolved tt
  /\ (exists doc',
        lookup 0 (store (snd (processRecord host_1000
                                (opts_with 5 true skips_500) failed_once
                                (world_of [failed_once]))))
        = Some doc'
        /\ status doc' = skipped
        /\ processedDate doc' = Some 1000
        /\ available doc' = Some (new_Date (Z2F 1000 + 500)%float)
        /\ _id doc' = 0%nat
        /\ receivedDate doc' = 5
        /\ retryCount doc' = Some 1
        /\ failureReason doc' = Some (JsString "Error: earlier")
        /\ immediateFailure doc' = None
        /\ additionalInfo doc' = None
        /\ notifyFailureReason doc' = None
        /\ resetDate doc' = None
        /\ data doc' = "payload"%string)
  /\ (forall j, j <> 0%nat ->
        lookup j (store (snd (processRecord host_1000
                                (opts_with 5 true skips_500) failed_once
                                (world_of [failed_once]))))
        = lookup j [failed_once]).
Proof.
  apply (@processRecord_skip_frame host_1000 (opts_with 5 true skips_500)
           1000 failed_once failed_once (Some 500%float)
           (world_of [failed_once])).
  - intros k. reflexivity.
  - intros k. reflexivity.
  - reflexivity.
  - reflexivity.
  - reflexivity.
Defined.

(** Skip(500) at 1000 ms: the record is available again at 1500 ms. *)
Example skip_500_at_1000 :
  map (fun r => (status r, processedDate r, available r, retryCount r))
    (store (snd (processRecord host_1000 (opts_with 5 true skips_500)
                   failed_once (world_of [failed_once]))))
  = [(skipped, Some 1000, Some (DateMs 1500), Some 1)].
Proof. vm_compute. reflexivity. Qed.

(** ** The retry count *)

Section RetryCount.

Variable host : Host.
Variable opts : Opts.

Lemma same_retry_counts_refl s : same_retry_counts s s.
Proof. reflexivity. Qed.

Lemma same_retry_counts_trans s1 s2 s3 :
  same_retry_counts s1 s2 -> same_retry_counts s2 s3 -> same_retry_counts s1 s3.
Proof. unfold same_retry_counts. congruence. Qed.

Lemma same_retry_counts_update id f :
  keeps_retryCount f ->
  forall s, same_retry_counts s (update_first (Q_id id) f s).
Proof.
  intros Hf s. unfold same_retry_counts, retry_counts.
  apply map_update_first. exact Hf.
Qed.

Lemma skip_keeps_retryCount (record : QueueRecord) (err : Rejection) :
  keeps same_retry_counts (processSkip host record err).
Proof.
  apply (@keeps_processSkip host same_retry_counts keeps_retryCount
           same_retry_counts_refl same_retry_counts_trans
           same_retry_counts_update).
  intros d1 d2 delay x. reflexivity.
Qed.

Lemma notify_keeps_retryCount (record : option QueueRecord) :
  keeps same_retry_counts (notifyFailedRecord host opts record).
Proof.
  apply (@keeps_notifyFailedRecord host opts same_retry_counts keeps_retryCount
           same_retry_counts_refl same_retry_counts_trans
           same_retry_counts_update).
  - intros now x. reflexivity.
  - intros now err x. reflexivity.
Qed.

Lemma failImmediately_keeps_retryCount (record : QueueRecord) (err : Rejection) :
  keeps same_retry_counts (failImmediately host opts record err).
Proof.
  apply (@keeps_failImmediately host opts same_retry_counts keeps_retryCount
           same_retry_counts_refl same_retry_counts_trans
           same_retry_counts_update).
  - intros reason x. reflexivity.
  - intros now x. reflexivity.
  - intros now err' x. reflexivity.
Qed.

(** The store after the handler has thrown [t]. *)
Lemma processRecord_thrown (record : QueueRecord) (w : World) (t : Thrown) :
  recordHasFailed opts record = false ->
  onProcess opts (at_call w record) record = Throws t ->
  processRecord host opts record w
  = on_rejection host opts record (Raised t) (at_call w record).
Proof.
  intros Hfresh H. rewrite (@processRecord_attempt host opts record w Hfresh).
  unfold catch_, then_ at 1, handler_outcome, then_ at 1, get_world.
  fold (at_call w record). rewrite H. reflexivity.
Qed.

(** C3, as the code has it: an ordinary failure of the handler sets
    status [failed], [processedDate = now], [failureReason] to the detail
    of the error, [available = new Date(now + backoff)] for the backoff of
    the count before the failure, and adds exactly 1 to the retry count.
    No other outcome adds to it: a skip, an immediate failure and a
    notification leave every retry count as it was, and a success clears
    the record's. *)
Theorem retryCount_only_ordinary_failure (now : Z) (record : QueueRecord)
    (w : World) :
  (calm host -> frozen host now -> recordHasFailed opts record = false ->
   lookup (_id record) (store w) = Some record ->
   forall err,
     onProcess opts (at_call w record) record = Throws (OtherError err) ->
     exists doc',
       lookup (_id record) (store (snd (processRecord host opts record w)))
       = Some doc'
       /\ status doc' = failed
       /\ processedDate doc' = Some now
       /\ failureReason doc' = Some (stack_or_self err)
       /\ available doc'
          = Some (new_Date (Z2F now + getErrorBackoffMs host opts record)%float)
       /\ retryCount doc' = Some (retryCount_or_0 record + 1))
  /\ (recordHasFailed opts record = false ->
      forall d,
        onProcess opts (at_call w record) record = Throws (SkipSignal d) ->
        same_retry_counts (store w)
          (store (snd (processRecord host opts record w))))
  /\ (recordHasFailed opts record = false ->
      forall reason,
        onProcess opts (at_call w record) record = Throws (FailSignal reason) ->
        same_retry_counts (store w)
          (store (snd (processRecord host opts record w))))
  /\ (recordHasFailed opts record = true ->
      same_retry_counts (store w)
        (store (snd (processRecord host opts record w))))
  /\ (calm host -> recordHasFailed opts record = false ->
      forall doc info,
        lookup (_id record) (store w) = Some doc ->
        onProcess opts (at_call w record) record = Returns info ->
        option_map retryCount
          (lookup (_id record) (store (snd (processRecord host opts record w))))
        = Some None).
Proof.
  split; [|split; [|split; [|split]]].
  - intros Hcalm Hfrozen Hfresh Hdoc err Herr.
    rewrite (@processRecord_failure host opts Hcalm record w Hfresh err Herr).
    simpl. rewrite !Hfrozen.
    rewrite lookup_update_same by apply keeps_id_failure. rewrite Hdoc. simpl.
    eexists. split; [reflexivity|]. repeat split.
    unfold retryCount_or_0. simpl. destruct (retryCount record); reflexivity.
  - intros Hfresh d Hd. rewrite (processRecord_thrown record w Hfresh Hd).
    unfold on_rejection. simpl.
    apply (skip_keeps_retryCount record _ (at_call w record)).
  - intros Hfresh reason Hr. rewrite (processRecord_thrown record w Hfresh Hr).
    unfold on_rejection. simpl.
    apply (failImmediately_keeps_retryCount record _ (at_call w record)).
  - intros Hex. unfold processRecord. rewrite Hex.
    apply notify_keeps_retryCount.
  - intros Hcalm Hfresh doc info Hdoc Hinfo.
    rewrite (@processRecord_success host opts Hcalm record w Hfresh info Hinfo).
    simpl. rewrite lookup_update_same by apply keeps_id_success.
    rewrite Hdoc. reflexivity.
Qed.

End RetryCount.

(** ** The batch selector *)

Lemma insert_sorted_In (r x : QueueRecord) (l : list QueueRecord) :
  In x (insert_sorted r l) <-> x = r \/ In x l.
Proof.
  induction l as [|y l IH]; simpl.
  - intuition.
  - destruct (receivedDate r <=? receivedDate y); simpl; [intuition|].
    rewrite IH. intuition.
Qed.

Lemma insert_sorted_sorted (r : QueueRecord) (l : list QueueRecord) :
  StronglySorted by_receivedDate l ->
  StronglySorted by_receivedDate (insert_sorted r l).
Proof.
  induction 1 as [|y l Hs IH Hall]; simpl.
  - constructor; constructor.
  - destruct (receivedDate r <=? receivedDate y) eqn:E.
    + apply Z.leb_le in E. constructor; [constructor; assumption|].
      constructor; [exact E|].
      eapply Forall_impl; [|exact Hall]. unfold by_receivedDate. intros; lia.
    + apply Z.leb_gt in E. constructor; [exact IH|].
      apply Forall_forall. intros x Hx. apply insert_sorted_In in Hx.
      destruct Hx as [->|Hx]; [unfold by_receivedDate; lia|].
      rewrite Forall_forall in Hall. apply Hall. exact Hx.
Qed.

Lemma sort_receivedDate_sorted (l : list QueueRecord) :
  StronglySorted by_receivedDate (sort_receivedDate l).
Proof.
  induction l as [|x l IH]; simpl; [constructor|].
  apply insert_sorted_sorted. exact IH.
Qed.

Lemma insert_sorted_perm (r : QueueRecord) (l : list QueueRecord) :
  Permutation (insert_sorted r l) (r :: l).
Proof.
  induction l as [|y l IH]; simpl; [reflexivity|].
  destruct (receivedDate r <=? receivedDate y); [reflexivity|].
  rewrite IH. apply perm_swap.
Qed.

Lemma sort_receivedDate_perm (l : list QueueRecord) :
  Permutation (sort_receivedDate l) l.
Proof.
  induction l as [|x l IH]; simpl; [reflexivity|].
  rewrite insert_sorted_perm. constructor. exact IH.
Qed.

Lemma In_firstn (n : nat) (l : list QueueRecord) (x : QueueRecord) :
  In x (firstn n l) -> In x l.
Proof.
  revert l. induction n as [|n IH]; intros [|y l]; simpl; try tauto.
  intros [H|H]; [left; exact H|right; apply IH; exact H].
Qed.

Lemma firstn_sorted (n : nat) (l : list QueueRecord) :
  StronglySorted by_receivedDate l ->
  StronglySorted by_receivedDate (firstn n l).
Proof.
  intros H. revert n. induction H as [|x l Hs IH Hall]; intros [|n]; simpl;
    try constructor.
  - apply IH.
  - apply Forall_forall. intros y Hy. rewrite Forall_forall in Hall.
    apply Hall. eapply In_firstn. exact Hy.
Qed.

Lemma filter_sorted (p : QueueRecord -> bool) (l : list QueueRecord) :
  StronglySorted by_receivedDate l ->
  StronglySorted by_receivedDate (filter p l).
Proof.
  induction 1 as [|x l Hs IH Hall]; simpl; [constructor|].
  destruct (p x); [|exact IH]. constructor; [exact IH|].
  apply Forall_forall. intros y Hy. rewrite Forall_forall in Hall.
  apply Hall. apply filter_In in Hy. tauto.
Qed.

Lemma limit_sorted (n : nat) (l : list QueueRecord) :
  StronglySorted by_receivedDate l ->
  StronglySorted by_receivedDate (limit n l).
Proof. destruct n; [trivial|apply firstn_sorted]. Qed.

Lemma limit_length (n : nat) (l : list QueueRecord) :
  (0 < n)%nat -> (List.length (limit n l) <= n)%nat.
Proof.
  destruct n; [lia|]. intros _. unfold limit. apply firstn_le_length.
Qed.

Lemma limit_prefix (n : nat) (l : list QueueRecord) :
  exists rest, limit n l ++ rest = l.
Proof.
  destruct n; [exists []; apply app_nil_r|].
  exists (skipn (S n) l). apply firstn_skipn.
Qed.

Section Selector.

Variable host : Host.
Variable opts : Opts.
Variable now : Z.
Hypothesis Hfrozen : frozen host now.

Lemma filter_available_frozen (records : list QueueRecord) (w : World) :
  filter_available host records w
  = (Resolved (filter (available_by now) records),
     reads_more (List.length records) w).
Proof.
  revert w. induction records as [|r l IH]; intros w; simpl.
  - destruct w; reflexivity.
  - unfold then_ at 1, Date_now. rewrite Hfrozen.
    unfold then_ at 1. rewrite IH. unfold resolve, reads_more. simpl.
    rewrite Nat.add_succ_r. unfold available_by.
    destruct (date_lte (available r) now); reflexivity.
Qed.

Lemma prioritizeRecords_strict (records : list QueueRecord) (w : World) :
  continueProcessingOnError opts = false ->
  fst (prioritizeRecords host opts records w)
  = Resolved (strict_batch now records)
  /\ store (snd (prioritizeRecords host opts records w)) = store w
  /\ trace (snd (prioritizeRecords host opts records w)) = trace w
  /\ calls (snd (prioritizeRecords host opts records w)) = calls w.
Proof.
  intros Hs. unfold prioritizeRecords, strict_batch, first_failed. rewrite Hs.
  fold is_failed.
  destruct (find is_failed records) as [ff|].
  - unfold then_, Date_now. rewrite Hfrozen.
    destruct (date_gt (available ff) now).
    + simpl. auto.
    + rewrite filter_available_frozen. simpl. auto.
  - rewrite filter_available_frozen. simpl. auto.
Qed.

End Selector.

Lemma sorted_app_le (l1 l2 : list QueueRecord) :
  StronglySorted by_receivedDate (l1 ++ l2) ->
  forall x y, In x l1 -> In y l2 -> by_receivedDate x y.
Proof.
  induction l1 as [|a l1 IH]; simpl; intros H x y Hx Hy; [contradiction|].
  inversion H as [|? ? Hs Hall]; subst.
  destruct Hx as [->|Hx].
  - rewrite Forall_forall in Hall. apply Hall. apply in_or_app. right. exact Hy.
  - apply IH; assumption.
Qed.

Section StrictMode.

Variable host : Host.
Variable opts : Opts.
Variable now : Z.
Hypothesis Hcalm : calm host.
Hypothesis Hfrozen : frozen host now.
Hypothesis Hstrict : continueProcessingOnError opts = false.

Lemma getNextBatch_fetch (w : World) :
  getNextBatch host opts w
  = prioritizeRecords host opts (strict_fetch opts now (store w))
      (mkWorld (store w) (S (reads w)) (S (S (calls w)))
         (trace w ++ [EvFind])).
Proof.
  unfold getNextBatch, collection_find_sort_limit, getCollection.
  unfold then_, Date_now, db_call, emit, get_world, resolve. simpl.
  rewrite !Hcalm, !Hfrozen, Hstrict. reflexivity.
Qed.

Lemma getNextBatch_strict (w : World) :
  fst (getNextBatch host opts w)
  = Resolved (strict_batch now (strict_fetch opts now (store w)))
  /\ store (snd (getNextBatch host opts w)) = store w
  /\ trace (snd (getNextBatch host opts w)) = trace w ++ [EvFind].
Proof.
  rewrite getNextBatch_fetch.
  match goal with
  | |- context [prioritizeRecords host opts ?rs ?w1] =>
      destruct (@prioritizeRecords_strict host opts now Hfrozen rs w1 Hstrict)
        as [H1 [H2 [H3 _]]]
  end.
  rewrite H1, H2, H3. auto.
Qed.

End StrictMode.

(** C1, as the code has it: in strict mode the selector fetches the
    records that failed (whatever their [available]) or are eligible
    ([received], [failed] or [skipped], and [available <= now]), in
    [receivedDate] order and at most [batchSize] of them; if the first
    failed record among them is not yet available the batch is empty, and
    otherwise the batch is the fetched records with [available <= now],
    still in [receivedDate] order. *)
Theorem getNextBatch_strict_mode (host : Host) (opts : Opts) (now : Z) (w : World) :
  calm host -> frozen host now ->
  continueProcessingOnError opts = false ->
  (0 < batchSize opts)%nat ->
  fst (getNextBatch host opts w)
  = Resolved
      (match first_failed (strict_fetch opts now (store w)) with
       | Some ff =>
           if date_gt (available ff) now then []
           else filter (available_by now) (strict_fetch opts now (store w))
       | None => filter (available_by now) (strict_fetch opts now (store w))
       end)
  /\ StronglySorted by_receivedDate (strict_fetch opts now (store w))
  /\ (List.length (strict_fetch opts now (store w)) <= batchSize opts)%nat
  /\ (exists rest,
        Permutation (strict_fetch opts now (store w) ++ rest)
          (filter (fun r => is_failed r || eligible now r) (store w))
        /\ forall x y, In x (strict_fetch opts now (store w)) -> In y rest ->
                       by_receivedDate x y)
  /\ (forall batch, fst (getNextBatch host opts w) = Resolved batch ->
        StronglySorted by_receivedDate batch).
Proof.
  intros Hcalm Hfrozen Hstrict Hpos.
  destruct (@getNextBatch_strict host opts now Hcalm Hfrozen Hstrict w) as [Hb _].
  assert (Hsorted : StronglySorted by_receivedDate (strict_fetch opts now (store w))).
  { unfold strict_fetch. apply limit_sorted, sort_receivedDate_sorted. }
  split; [exact Hb|]. split; [exact Hsorted|].
  split; [apply limit_length; exact Hpos|]. split.
  - unfold strict_fetch.
    destruct (limit_prefix (batchSize opts)
                (sort_receivedDate
                   (filter (fun r => is_failed r || eligible now r) (store w))))
      as [rest Hrest].
    exists rest. split.
    + rewrite Hrest. apply sort_receivedDate_perm.
    + apply sorted_app_le. rewrite Hrest. apply sort_receivedDate_sorted.
  - intros batch Hbatch. rewrite Hb in Hbatch. injection Hbatch as <-.
    unfold strict_batch. destruct (first_failed _) as [ff|].
    + destruct (date_gt (available ff) now); [constructor|].
      apply filter_sorted. exact Hsorted.
    + apply filter_sorted. exact Hsorted.
Qed.

Lemma getNextBatch_strict_mode_witness :
  fst (getNextBatch host_1000 (opts_with 5 true always_returns)
         (world_of [rec_C; rec_A]))
  = Resolved [rec_A; rec_C].
Proof.
  refine (proj1 (@getNextBatch_strict_mode host_1000
                   (opts_with 5 true always_returns) 1000
                   (world_of [rec_C; rec_A]) _ _ _ _)).
  - intros k. reflexivity.
  - intros k. reflexivity.
  - reflexivity.
  - simpl. lia.
Defined.

(** The fetched records hold a failed record ([rec_B]) whose [available]
    is still in the future, and the batch is not empty: the first failed
    record ([rec_A]) is available. *)
Lemma later_failed_record_counterexample :
  strict_fetch (opts_with 5 true always_returns) 1000 [rec_A; rec_B; rec_C]
  = [rec_A; rec_B; rec_C]
  /\ is_failed rec_B = true
  /\ date_gt (available rec_B) 1000 = true
  /\ fst (getNextBatch host_1000 (opts_with 5 true always_returns)
            (world_of [rec_A; rec_B; rec_C]))
     = Resolved [rec_A; rec_C].
Proof. repeat split; vm_compute; reflexivity. Qed.

(** ** The first failed record *)

Lemma strict_batch_empty_iff (now : Z) (records : list QueueRecord)
    (ff : QueueRecord) (a : Z) :
  first_failed records = Some ff ->
  available ff = Some (DateMs a) ->
  (strict_batch now records = [] <-> now < a).
Proof.
  intros Hff Ha. unfold strict_batch. rewrite Hff, Ha. simpl.
  destruct (now <? a) eqn:E.
  - apply Z.ltb_lt in E. tauto.
  - apply Z.ltb_ge in E. split; [|lia]. intros Hnil. exfalso.
    apply find_some in Hff. destruct Hff as [Hin _].
    assert (Hk : In ff (filter (available_by now) records)).
    { apply filter_In. split; [exact Hin|].
      unfold available_by. rewrite Ha. simpl. apply Z.leb_le. exact E. }
    rewrite Hnil in Hk. exact Hk.
Qed.

(** C10: in strict mode the first failed record of the fetched records
    alone decides whether the batch stalls: the batch is empty exactly
    when that record's [available] is in the future; when it is not, the
    batch is the fetched records with [available <= now], so that any
    other failed record still in backoff is left out of a batch that is not
    empty. *)
Theorem first_failed_decides (host : Host) (opts : Opts) (now : Z) (w : World)
    (ff : QueueRecord) (a : Z) :
  calm host -> frozen host now ->
  continueProcessingOnError opts = false ->
  first_failed (strict_fetch opts now (store w)) = Some ff ->
  available ff = Some (DateMs a) ->
  exists batch,
    fst (getNextBatch host opts w) = Resolved batch
    /\ (batch = [] <-> now < a)
    /\ (a <= now ->
        batch = filter (available_by now) (strict_fetch opts now (store w))
        /\ In ff batch
        /\ forall r, In r (strict_fetch opts now (store w)) ->
                     date_gt (available r) now = true -> ~ In r batch).
Proof.
  intros Hcalm Hfrozen Hstrict Hff Ha.
  destruct (@getNextBatch_strict host opts now Hcalm Hfrozen Hstrict w) as [Hb _].
  exists (strict_batch now (strict_fetch opts now (store w))).
  split; [exact Hb|]. split; [apply (strict_batch_empty_iff now _ Hff Ha)|].
  intros Hle.
  assert (E : strict_batch now (strict_fetch opts now (store w))
              = filter (available_by now) (strict_fetch opts now (store w))).
  { unfold strict_batch. rewrite Hff, Ha. simpl.
    replace (now <? a) with false; [reflexivity|].
    symmetry. apply Z.ltb_ge. exact Hle. }
  rewrite E. split; [reflexivity|]. split.
  - apply filter_In. split; [apply find_some in Hff; tauto|].
    unfold available_by. rewrite Ha. simpl. apply Z.leb_le. exact Hle.
  - intros r Hr Hgt Hin. apply filter_In in Hin. destruct Hin as [_ Hav].
    unfold available_by in Hav.
    destruct (available r) as [[t|]|]; simpl in *; try discriminate.
    apply Z.leb_le in Hav. apply Z.ltb_lt in Hgt. lia.
Qed.

Lemma first_failed_decides_witness :
  exists batch,
    fst (getNextBatch host_1000 (opts_with 5 true always_returns)
           (world_of [rec_A; rec_B; rec_C])) = Resolved batch
    /\ (batch = [] <-> 1000 < 900)
    /\ (900 <= 1000 ->
        batch = filter (available_by 1000)
                  (strict_fetch (opts_with 5 true always_returns) 1000
                     [rec_A; rec_B; rec_C])
        /\ In rec_A batch
        /\ forall r,
             In r (strict_fetch (opts_with 5 true always_returns) 1000
                     [rec_A; rec_B; rec_C]) ->
             date_gt (available r) 1000 = true -> ~ In r batch).
Proof.
  apply (@first_failed_decides host_1000 (opts_with 5 true always_returns)
           1000 (world_of [rec_A; rec_B; rec_C]) rec_A 900).
  - intros k. reflexivity.
  - intros k. reflexivity.
  - reflexivity.
  - reflexivity.
  - reflexivity.
Defined.

(** ** The retry count, on examples *)

Lemma retryCount_only_ordinary_failure_witness :
  exists doc',
    lookup 0 (store (snd (processRecord host_1000
                            (opts_with 5 true always_throws) failed_once
                            (world_of [failed_once]))))
    = Some doc'
    /\ status doc' = failed
    /\ processedDate doc' = Some 1000
    /\ failureReason doc' = Some (stack_or_self an_error)
    /\ available doc'
       = Some (new_Date (Z2F 1000
                         + getErrorBackoffMs host_1000
                             (opts_with 5 true always_throws) failed_once)%float)
    /\ retryCount doc' = Some (retryCount_or_0 failed_once + 1).
Proof.
  refine (proj1 (@retryCount_only_ordinary_failure host_1000
                   (opts_with 5 true always_throws) 1000 failed_once
                   (world_of [failed_once])) _ _ _ _ an_error _).
  - intros k. reflexivity.
  - intros k. reflexivity.
  - reflexivity.
  - reflexivity.
  - reflexivity.
Defined.

(** A success changes the retry count of a record that has one: the
    update removes the field. *)
Lemma success_clears_retryCount_counterexample :
  option_map retryCount (lookup 0 (store (world_of [failed_once])))
  = Some (Some 1)
  /\ fst (processRecord host_1000 (opts_with 5 true always_returns) failed_once
            (world_of [failed_once])) = Resolved tt
  /\ option_map retryCount
       (lookup 0 (store (snd (processRecord host_1000
                                (opts_with 5 true always_returns) failed_once
                                (world_of [failed_once])))))
     = Some None.
Proof. repeat split; vm_compute; reflexivity. Qed.

(** An ordinary failure at 1000 ms of a record that failed once before:
    the second failure, backed off by 1000 * 2 ^ 1.5 ms. *)
Example second_failure_at_1000 :
  map (fun r => (status r, processedDate r, failureReason r, available r,
                 retryCount r))
    (store (snd (processRecord host_1000 (opts_with 5 true always_throws)
                   failed_once (world_of [failed_once]))))
  = [(failed, Some 1000, Some (JsString "Error: boom at handler"),
      Some (DateMs 3828), Some 2)].
Proof. vm_compute. reflexivity. Qed.

(** ** The identities in the store *)

Section SameIds.

Variable host : Host.
Variable opts : Opts.

Lemma same_ids_refl s : same_ids s s.
Proof. reflexivity. Qed.

Lemma same_ids_trans s1 s2 s3 :
  same_ids s1 s2 -> same_ids s2 s3 -> same_ids s1 s3.
Proof. unfold same_ids. congruence. Qed.

Lemma same_ids_update id f :
  keeps_id f -> forall s, same_ids s (update_first (Q_id id) f s).
Proof. intros Hf s. apply map_update_first. exact Hf. Qed.

(** Processing a record never adds, removes or renames a document. *)
Lemma processRecord_same_ids (record : QueueRecord) :
  keeps same_ids (processRecord host opts record).
Proof.
  pose proof same_ids_refl as Hr. pose proof same_ids_trans as Ht.
  pose proof same_ids_update as Hu.
  pose proof keeps_id_success as G1. pose proof keeps_id_failure as G2.
  pose proof keeps_id_skip as G3. pose proof keeps_id_immediate as G4.
  pose proof keeps_id_notified as G5. pose proof keeps_id_notifyFailure as G6.
  unfold processRecord. destruct (recordHasFailed opts record).
  - eapply keeps_notifyFailedRecord with (good := keeps_id); eauto.
  - eapply keeps_catch; [exact Ht| |].
    + eapply keeps_then; [exact Ht| |].
      * unfold call_onProcess. eapply keeps_then; [exact Ht| |].
        -- apply keeps_emit. exact Hr.
        -- intros _. apply keeps_handler_outcome; assumption.
      * intros info.
        eapply keeps_processSuccess with (good := keeps_id); eauto.
    + intros err. unfold on_rejection.
      destruct (isSkip err).
      { eapply keeps_processSkip with (good := keeps_id); eauto. }
      destruct (isFail err).
      { eapply keeps_failImmediately with (good := keeps_id); eauto. }
      eapply keeps_then; [exact Ht| |].
      * eapply keeps_processFailure with (good := keeps_id); eauto.
      * intros _. destruct (negb (continueProcessingOnError opts)).
        -- apply keeps_reject. exact Hr.
        -- apply keeps_resolve. exact Hr.
Qed.

End SameIds.

(** ** The batch orchestrator *)

Lemma lookup_in (id : nat) (s : list QueueRecord) :
  In id (map _id s) -> exists doc, lookup id s = Some doc /\ _id doc = id.
Proof.
  unfold lookup. induction s as [|x s IH]; simpl; [contradiction|].
  intros H. destruct (Nat.eqb (_id x) id) eqn:E.
  - exists x. split; [reflexivity|]. apply Nat.eqb_eq. exact E.
  - destruct H as [H|H]; [apply Nat.eqb_neq in E; contradiction|].
    apply IH. exact H.
Qed.

Lemma filter_available_total (host : Host) (records : list QueueRecord) (w : World) :
  exists kept,
    filter_available host records w
    = (Resolved kept, reads_more (List.length records) w)
    /\ incl kept records.
Proof.
  revert w. induction records as [|r l IH]; intros w; simpl.
  - exists []. split; [destruct w; reflexivity|apply incl_refl].
  - unfold then_ at 1, Date_now. unfold then_ at 1.
    destruct (IH (mkWorld (store w) (S (reads w)) (calls w) (trace w)))
      as [kept [E Hincl]].
    rewrite E. unfold resolve, reads_more. simpl. rewrite Nat.add_succ_r.
    destruct (date_lte (available r) (clock host (reads w))).
    + exists (r :: kept). split; [reflexivity|].
      intros x [->|Hx]; [left; reflexivity|right; apply Hincl; exact Hx].
    + exists kept. split; [reflexivity|].
      intros x Hx. right. apply Hincl. exact Hx.
Qed.

Lemma prioritizeRecords_total (host : Host) (opts : Opts)
    (records : list QueueRecord) (w : World) :
  exists batch w1,
    prioritizeRecords host opts records w = (Resolved batch, w1)
    /\ store w1 = store w /\ incl batch records.
Proof.
  unfold prioritizeRecords.
  destruct (continueProcessingOnError opts).
  { exists records, w. split; [reflexivity|]. split; [reflexivity|apply incl_refl]. }
  destruct (find _ records) as [ff|].
  - unfold then_, Date_now.
    destruct (date_gt (available ff) (clock host (reads w))).
    + eexists [], _. split; [reflexivity|]. split; [reflexivity|].
      intros x [].
    + match goal with
      | |- context [filter_available host records ?w1] =>
          destruct (filter_available_total host records w1) as [kept [E Hi]]
      end.
      rewrite E. eexists kept, _. split; [reflexivity|]. split; [reflexivity|exact Hi].
  - destruct (filter_available_total host records w) as [kept [E Hi]].
    rewrite E. eexists kept, _. split; [reflexivity|]. split; [reflexivity|exact Hi].
Qed.

Lemma limit_incl (n : nat) (l : list QueueRecord) : incl (limit n l) l.
Proof.
  destruct n; [apply incl_refl|]. intros x Hx. eapply In_firstn. exact Hx.
Qed.

Section Settles.

Variable host : Host.
Variable opts : Opts.
Hypothesis Hcalm : calm host.

(** With a store that does not fail, the selector resolves with records
    of the store, which it leaves alone. *)
Lemma getNextBatch_calm (w : World) :
  exists batch w1,
    getNextBatch host opts w = (Resolved batch, w1)
    /\ store w1 = store w /\ incl batch (store w).
Proof.
  unfold getNextBatch, collection_find_sort_limit, getCollection.
  unfold then_ at 1, Date_now at 1.
  unfold then_ at 1, db_call at 1. rewrite Hcalm.
  unfold then_ at 1. unfold then_ at 1, db_call at 1. simpl calls. rewrite Hcalm.
  unfold then_ at 1, emit at 1. unfold then_ at 1, get_world at 1.
  unfold resolve at 1. simpl store.
  match goal with
  | |- context [prioritizeRecords host opts ?rs ?w1] =>
      destruct (prioritizeRecords_total host opts rs w1)
        as [batch [w2 [E [Hs Hi]]]]
  end.
  rewrite E. exists batch, w2. split; [reflexivity|]. split; [exact Hs|].
  intros x Hx. apply Hi in Hx. apply limit_incl in Hx.
  apply (Permutation_in _ (sort_receivedDate_perm _)) in Hx.
  apply filter_In in Hx. tauto.
Qed.

Hypothesis Hhook : forall w0 r, onFailure opts w0 r <> HookFails JsUndefined.

Lemma notifyFailedRecord_calm (r : QueueRecord) (w : World) :
  exists w1, notifyFailedRecord host opts (Some r) w = (Resolved tt, w1).
Proof.
  unfold notifyFailedRecord, collection_update, getCollection.
  unfold_promise. simpl.
  match goal with
  | |- context [onFailure opts ?w0 ?x] =>
      pose proof (Hhook w0 x) as Hne; destruct (onFailure opts w0 x) as [|[| |]]
  end; simpl; rewrite ?Hcalm; simpl; rewrite ?Hcalm; simpl; eauto.
  exfalso. apply Hne. reflexivity.
Qed.

Lemma failImmediately_calm (record : QueueRecord) (err : Rejection) (w : World) :
  In (_id record) (map _id (store w)) ->
  exists w1, failImmediately host opts record err w = (Resolved tt, w1).
Proof.
  intros Hin. unfold failImmediately.
  unfold then_ at 1, getCollection, db_call. rewrite Hcalm.
  unfold then_ at 1. rewrite collection_update_calm by exact Hcalm.
  unfold then_ at 1, collection_findOne, then_ at 1, db_call. simpl calls.
  rewrite Hcalm. unfold then_ at 1, get_world, resolve. simpl store.
  fold (lookup (_id record)
          (update_first (Q_id (_id record))
             (immediate_modifier (stack_or_self (getFailReason err))) (store w))).
  rewrite lookup_update_same by apply keeps_id_immediate.
  destruct (lookup_in _ _ Hin) as [doc [Hdoc _]]. rewrite Hdoc. simpl option_map.
  apply notifyFailedRecord_calm.
Qed.

(** One record either settles or, in strict mode, raises the sentinel. *)
Lemma processRecord_calm (record : QueueRecord) (w : World) :
  In (_id record) (map _id (store w)) ->
  exists w1,
    processRecord host opts record w = (Resolved tt, w1)
    \/ processRecord host opts record w = (Rejected STOP_PROCESSING, w1).
Proof.
  intros Hin. destruct (recordHasFailed opts record) eqn:Hex.
  - unfold processRecord. rewrite Hex.
    destruct (notifyFailedRecord_calm record w) as [w1 E]. eauto.
  - destruct (onProcess opts (at_call w record) record) as [info|[d|reason|err]] eqn:Hh.
    + rewrite (@processRecord_success host opts Hcalm record w Hex info Hh). eauto.
    + rewrite (@processRecord_skip host opts Hcalm record w Hex d Hh). eauto.
    + rewrite (@processRecord_thrown host opts record w _ Hex Hh).
      unfold on_rejection. simpl.
      destruct (failImmediately_calm record (Raised (FailSignal reason))
                  (at_call w record)) as [w1 E]; [exact Hin|]. eauto.
    + rewrite (@processRecord_failure host opts Hcalm record w Hex err Hh).
      destruct (negb (continueProcessingOnError opts)); eauto.
Qed.

Lemma mapSeries_calm (records : list QueueRecord) (w : World) :
  (forall r, In r records -> In (_id r) (map _id (store w))) ->
  exists w1,
    (exists ys, mapSeries (processRecord host opts) records w = (Resolved ys, w1))
    \/ mapSeries (processRecord host opts) records w
       = (Rejected STOP_PROCESSING, w1).
Proof.
  revert w. induction records as [|r l IH]; intros w Hin; simpl.
  - exists w. left. exists []. reflexivity.
  - pose proof (@processRecord_same_ids host opts r w) as Hids.
    destruct (processRecord_calm r w) as [w1 [E|E]];
      [apply Hin; left; reflexivity| |].
    + rewrite E in Hids. simpl in Hids.
      destruct (IH w1) as [w2 [[ys E2]|E2]].
      { intros x Hx. unfold same_ids in Hids. rewrite Hids. apply Hin. right. exact Hx. }
      * exists w2. left. exists (tt :: ys). unfold then_. rewrite E, E2. reflexivity.
      * exists w2. right. unfold then_. rewrite E, E2. reflexivity.
    + exists w1. right. unfold then_ at 1. rewrite E. reflexivity.
Qed.

End Settles.

Lemma mapSeries_rejects_at {A B} (f : A -> Promise B) (pre rest : list A)
    (x : A) (ys : list B) (err : Rejection) (w w1 w2 : World) :
  mapSeries f pre w = (Resolved ys, w1) ->
  f x w1 = (Rejected err, w2) ->
  mapSeries f (pre ++ x :: rest) w = (Rejected err, w2).
Proof.
  revert ys w. induction pre as [|p pre IH]; intros ys w Hpre Hx; simpl in *.
  - injection Hpre as _ <-. unfold then_. rewrite Hx. reflexivity.
  - unfold then_ in Hpre |- *.
    destruct (f p w) as [[y|e] w0]; [|discriminate].
    destruct (mapSeries f pre w0) as [[ys0|e] w3] eqn:E; [|discriminate].
    injection Hpre as _ <-.
    rewrite (IH ys0 w0 E Hx). reflexivity.
Qed.

Lemma processNextBatch_catch (host : Host) (opts : Opts) (w : World) :
  processNextBatch host opts w
  = match batch_chain host opts w with
    | (Resolved _, w1) => (Resolved tt, w1)
    | (Rejected STOP_PROCESSING, w1) => (Resolved tt, w1)
    | (Rejected (Raised t), w1) => (Rejected (Raised t), w1)
    end.
Proof.
  unfold processNextBatch, catch_.
  destruct (batch_chain host opts w) as [[[]|[|t]] w1]; reflexivity.
Qed.



(** Strict mode, three records due, a handler that always throws: the
    first record fails, the other two are not handed to the handler, and
    the caller sees a resolved promise. *)
Example strict_batch_stops_at_first_failure :
  (fst (processNextBatch host_1000 (opts_with 5 true always_throws)
          (world_of [rec_A; rec_C; fresh_record 3 received 4 (Some (DateMs 0)) None])),
   trace (snd (processNextBatch host_1000 (opts_with 5 true always_throws)
          (world_of [rec_A; rec_C; fresh_record 3 received 4 (Some (DateMs 0)) None]))))
  = (Resolved tt, [EvFind; EvOnProcess 0; EvUpdate 0]).
Proof. vm_compute. reflexivity. Qed.

(** ** The [available] field and the status *)

Lemma settles_success now info : settles (success_modifier now info).
Proof. split; [apply keeps_id_success|]. intros d. destruct info; reflexivity. Qed.

Lemma settles_failure d1 d2 delay reason :
  settles (failure_modifier d1 d2 delay reason).
Proof. split; [apply keeps_id_failure|]. intros d. simpl. discriminate. Qed.

Lemma settles_skip d1 d2 delay : settles (skip_modifier d1 d2 delay).
Proof. split; [apply keeps_id_skip|]. intros d. simpl. discriminate. Qed.

Lemma settles_notified now : settles (notified_modifier now).
Proof. split; [apply keeps_id_notified|]. intros d. exact I. Qed.

Lemma settles_notifyFailure now err : settles (notifyFailure_modifier now err).
Proof. split; [apply keeps_id_notifyFailure|]. intros d. exact I. Qed.

Ltac split_cases host opts :=
  repeat (simpl;
          match goal with
          | |- context [recordHasFailed opts ?r] =>
              destruct (recordHasFailed opts r)
          | |- context [faults host ?k] => destruct (faults host k)
          | |- context [onFailure opts ?a ?b] =>
              destruct (onFailure opts a b) as [|[| |]]
          | |- context [onProcess opts ?a ?b] =>
              destruct (onProcess opts a b) as [[[|]|]|[|reason|]]
          | |- context [continueProcessingOnError opts] =>
              destruct (continueProcessingOnError opts)
          end).

Lemma notifyFailedRecord_effect (host : Host) (opts : Opts)
    (record : option QueueRecord) (w : World) :
  store (snd (notifyFailedRecord host opts record w)) = store w
  \/ exists r f,
       record = Some r /\ settles f
       /\ store (snd (notifyFailedRecord host opts record w))
          = update_first (Q_id (_id r)) f (store w).
Proof.
  pose proof settles_notified as S4. pose proof settles_notifyFailure as S5.
  unfold notifyFailedRecord, collection_update, getCollection.
  unfold_promise. destruct record as [r|]; split_cases host opts.
  all: try (left; reflexivity).
  all: right; eexists r, _; split; [reflexivity|]; split; [|reflexivity]; auto.
Qed.

Lemma processRecord_effect (host : Host) (opts : Opts) (record : QueueRecord)
    (w : World) :
  record_effect (_id record) (store w)
    (store (snd (processRecord host opts record w))).
Proof.
  pose proof settles_success as S1. pose proof settles_failure as S2.
  pose proof settles_skip as S3.
  unfold processRecord, on_rejection, processSuccess,
    processFailure, processSkip, failImmediately, call_onProcess,
    handler_outcome, collection_update, collection_findOne, getCollection.
  destruct (recordHasFailed opts record).
  { destruct (notifyFailedRecord_effect host opts (Some record) w)
      as [E|[r [f [Er [Hf E]]]]].
    - left. exact E.
    - injection Er as <-. right. left. exists f. auto. }
  unfold_promise. split_cases host opts.
  all: try (left; reflexivity).
  all: try (right; left; eexists; split; [|reflexivity]; solve [auto]).
  all: try (simpl; right; right; left; eexists; reflexivity).
  match goal with
  | |- context [notifyFailedRecord host opts ?o ?w1] =>
      destruct (notifyFailedRecord_effect host opts o w1)
        as [E|[r [f [Er [Hf E]]]]]; rewrite E; simpl
  end.
  - right. right. left. eexists. reflexivity.
  - right. right. right. exists (stack_or_self reason), f. split; [exact Hf|].
    apply find_some in Er. destruct Er as [_ Er]. simpl in Er.
    apply Nat.eqb_eq in Er. rewrite Er. reflexivity.
Qed.

Lemma In_update_first (id : nat) (f : QueueRecord -> QueueRecord)
    (s : list QueueRecord) (x : QueueRecord) :
  In x (update_first (Q_id id) f s) ->
  In x s \/ exists d, In d s /\ _id d = id /\ x = f d.
Proof.
  induction s as [|y s IH]; simpl; [tauto|].
  destruct (Nat.eqb (_id y) id) eqn:E; simpl.
  - intros [<-|H]; [|tauto]. right. exists y.
    apply Nat.eqb_eq in E. auto.
  - intros [<-|H]; [tauto|]. destruct (IH H) as [H1|[d [H1 H2]]]; [tauto|].
    right. exists d. tauto.
Qed.

Lemma store_ok_update (id : nat) (f : QueueRecord -> QueueRecord)
    (s : list QueueRecord) :
  keeps_id f ->
  (forall d, In d s -> _id d = id -> wf_record (f d)) ->
  store_ok s -> store_ok (update_first (Q_id id) f s).
Proof.
  intros Hid Hf [Hwf Hnd]. split.
  - apply Forall_forall. intros x Hx. rewrite Forall_forall in Hwf.
    apply In_update_first in Hx. destruct Hx as [Hx|[d [Hd [Hi ->]]]]; auto.
  - rewrite map_update_first by exact Hid. exact Hnd.
Qed.

Lemma immediate_available (reason : JsValue) (d : QueueRecord) :
  available d <> None -> wf_record (immediate_modifier reason d).
Proof. intros H. exact H. Qed.

(** One record's processing keeps the store well-formed when the stored
    record carries an [available] date, and leaves every other document
    alone. *)
Lemma record_effect_ok (id : nat) (s s' : list QueueRecord) :
  record_effect id s s' ->
  store_ok s ->
  (forall d, In d s -> _id d = id -> available d <> None) ->
  store_ok s' /\ (forall x, In x s' -> _id x <> id -> In x s).
Proof.
  intros Heff Hok Hav.
  assert (Himm : forall reason,
             store_ok (update_first (Q_id id) (immediate_modifier reason) s)).
  { intros reason. apply store_ok_update; [apply keeps_id_immediate| |exact Hok].
    intros d Hd Hi. apply immediate_available. apply Hav; assumption. }
  assert (Hother : forall f s0 x,
             keeps_id f -> In x (update_first (Q_id id) f s0) ->
             _id x <> id -> In x s0).
  { intros f s0 x Hf Hx Hne. apply In_update_first in Hx.
    destruct Hx as [Hx|[d [Hd [Hi ->]]]]; [exact Hx|].
    rewrite Hf in Hne. contradiction. }
  destruct Heff as [->|[[f [[Hid Hf] ->]]|[[reason ->]|[reason [f [[Hid Hf] ->]]]]]].
  - auto.
  - split; [apply store_ok_update; auto|]. intros x. apply Hother. exact Hid.
  - split; [apply Himm|]. intros x. apply Hother. apply keeps_id_immediate.
  - split; [apply store_ok_update; auto|].
    intros x Hx Hne. apply (Hother _ _ _ Hid) in Hx; [|exact Hne].
    apply (Hother _ _ _ (keeps_id_immediate reason)) in Hx; assumption.
Qed.

Lemma mapSeries_store_ok (host : Host) (opts : Opts)
    (records : list QueueRecord) (w : World) :
  NoDup (map _id records) ->
  store_ok (store w) -> batch_ready records (store w) ->
  store_ok (store (snd (mapSeries (processRecord host opts) records w))).
Proof.
  revert w. induction records as [|r l IH]; intros w Hnd Hok Hready; simpl.
  - exact Hok.
  - inversion Hnd as [|? ? Hnotin Hnd']; subst.
    destruct (record_effect_ok (processRecord_effect host opts r w) Hok)
      as [Hok1 Hother].
    { intros d Hd Hi. apply (Hready r); [left; reflexivity|exact Hd|exact Hi]. }
    unfold then_ at 1.
    destruct (processRecord host opts r w) as [[y|err] w1]; simpl in *;
      [|exact Hok1].
    assert (Hr1 : batch_ready l (store w1)).
    { intros r' Hr' d Hd Hi. apply (Hready r'); [right; exact Hr'| |exact Hi].
      apply Hother; [exact Hd|]. intros E. apply Hnotin.
      rewrite <- E, Hi. apply in_map. exact Hr'. }
    specialize (IH w1 Hnd' Hok1 Hr1). unfold then_.
    destruct (mapSeries (processRecord host opts) l w1) as [[ys|err] w2];
      exact IH.
Qed.

Lemma NoDup_map_filter {A B} (g : A -> B) (p : A -> bool) (l : list A) :
  NoDup (map g l) -> NoDup (map g (filter p l)).
Proof.
  induction l as [|x l IH]; simpl; intros H; [constructor|].
  inversion H as [|? ? Hn Hd]; subst.
  destruct (p x); simpl; [|apply IH; exact Hd].
  constructor; [|apply IH; exact Hd].
  intros Hin. apply Hn. apply in_map_iff in Hin.
  destruct Hin as [y [Hy Hin]]. apply filter_In in Hin.
  rewrite <- Hy. apply in_map. tauto.
Qed.

Lemma NoDup_map_limit (n : nat) (l : list QueueRecord) :
  NoDup (map _id l) -> NoDup (map _id (limit n l)).
Proof.
  destruct (limit_prefix n l) as [rest E]. intros H.
  rewrite <- E, map_app in H. apply NoDup_app_remove_r in H. exact H.
Qed.

Lemma NoDup_map_inj {A B} (g : A -> B) (l : list A) (a b : A) :
  NoDup (map g l) -> In a l -> In b l -> g a = g b -> a = b.
Proof.
  induction l as [|x l IH]; simpl; intros H Ha Hb E; [contradiction|].
  inversion H as [|? ? Hn Hd]; subst.
  destruct Ha as [->|Ha], Hb as [->|Hb]; auto.
  - exfalso. apply Hn. rewrite E. apply in_map. exact Hb.
  - exfalso. apply Hn. rewrite <- E. apply in_map. exact Ha.
Qed.

Lemma date_lte_available (a : option Date) (now : Z) :
  date_lte a now = true -> a <> None.
Proof. destruct a; simpl; [discriminate|discriminate]. Qed.

Lemma filter_available_batch (host : Host) (records : list QueueRecord)
    (w : World) :
  exists kept,
    filter_available host records w
    = (Resolved kept, reads_more (List.length records) w)
    /\ incl kept records
    /\ (NoDup (map _id records) -> NoDup (map _id kept))
    /\ (forall r, In r kept -> available r <> None).
Proof.
  revert w. induction records as [|r l IH]; intros w; simpl.
  - exists []. split; [destruct w; reflexivity|].
    split; [apply incl_refl|]. split; [auto|]. intros r [].
  - unfold then_ at 1, Date_now. unfold then_ at 1.
    destruct (IH (mkWorld (store w) (S (reads w)) (calls w) (trace w)))
      as [kept [E [Hincl [Hnd Hav]]]].
    rewrite E. unfold resolve, reads_more. simpl. rewrite Nat.add_succ_r.
    destruct (date_lte (available r) (clock host (reads w))) eqn:Hr.
    + exists (r :: kept). split; [reflexivity|]. split; [|split].
      * intros x [->|Hx]; [left; reflexivity|right; apply Hincl; exact Hx].
      * intros H. inversion H as [|? ? Hn Hd]; subst. simpl.
        constructor; [|apply Hnd; exact Hd].
        intros Hin. apply Hn. apply in_map_iff in Hin.
        destruct Hin as [y [Hy Hin]]. rewrite <- Hy. apply in_map.
        apply Hincl. exact Hin.
      * intros x [<-|Hx]; [eapply date_lte_available; exact Hr|apply Hav; exact Hx].
    + exists kept. split; [reflexivity|]. split; [|split].
      * intros x Hx. right. apply Hincl. exact Hx.
      * intros H. inversion H; subst. apply Hnd. assumption.
      * exact Hav.
Qed.

Lemma prioritizeRecords_batch (host : Host) (opts : Opts)
    (records : list QueueRecord) (w : World) :
  exists batch w1,
    prioritizeRecords host opts records w = (Resolved batch, w1)
    /\ store w1 = store w
    /\ incl batch records
    /\ (NoDup (map _id records) -> NoDup (map _id batch))
    /\ ((continueProcessingOnError opts = true ->
         forall r, In r records -> available r <> None) ->
        forall r, In r batch -> available r <> None).
Proof.
  unfold prioritizeRecords.
  destruct (continueProcessingOnError opts).
  { exists records, w. split; [reflexivity|]. split; [reflexivity|].
    split; [apply incl_refl|]. split; auto. }
  assert (Hfa : forall w0,
             exists batch w1,
               filter_available host records w0 = (Resolved batch, w1)
               /\ store w1 = store w0 /\ incl batch records
               /\ (NoDup (map _id records) -> NoDup (map _id batch))
               /\ ((false = true ->
                    forall r, In r records -> available r <> None) ->
                   forall r, In r batch -> available r <> None)).
  { intros w0.
    destruct (filter_available_batch host records w0) as [kept [E [Hi [Hn Ha]]]].
    exists kept. eexists. split; [exact E|]. split; [reflexivity|]. auto. }
  destruct (find _ records) as [ff|]; [|apply Hfa].
  unfold then_, Date_now.
  destruct (date_gt (available ff) (clock host (reads w))).
  - exists []. eexists. split; [reflexivity|]. split; [reflexivity|].
    split; [intros x []|]. split; [intros _; constructor|]. intros _ r [].
  - destruct (Hfa (mkWorld (store w) (S (reads w)) (calls w) (trace w)))
      as [batch [w1 [E [Hs H]]]].
    exists batch, w1. split; [exact E|]. split; [exact Hs|exact H].
Qed.

Lemma then_resolved {A B} (p : Promise A) (k : A -> Promise B)
    (w w2 : World) (b : B) :
  then_ p k w = (Resolved b, w2) ->
  exists a w1, p w = (Resolved a, w1) /\ k a w1 = (Resolved b, w2).
Proof.
  unfold then_. destruct (p w) as [[a|err] w1]; [|discriminate].
  intros H. exists a, w1. auto.
Qed.

Lemma db_call_store (host : Host) (w w1 : World) (r : Settled unit) :
  db_call host w = (r, w1) -> store w1 = store w.
Proof.
  unfold db_call. destruct (faults host (calls w)); intros H;
    injection H as _ <-; reflexivity.
Qed.

Lemma collection_find_resolved (host : Host) (q : Query) (n : nat)
    (w w1 : World) (records : list QueueRecord) :
  collection_find_sort_limit host q n w = (Resolved records, w1) ->
  records = limit n (sort_receivedDate (filter (matches q) (store w)))
  /\ store w1 = store w.
Proof.
  unfold collection_find_sort_limit. intros H.
  apply then_resolved in H. destruct H as [u [wa [H1 H]]].
  apply db_call_store in H1. unfold then_, emit, get_world, resolve in H.
  injection H as <- <-. simpl. rewrite H1. auto.
Qed.

Lemma getNextBatch_batch (host : Host) (opts : Opts) (w : World)
    (records : list QueueRecord) (w1 : World) :
  getNextBatch host opts w = (Resolved records, w1) ->
  store w1 = store w
  /\ incl records (store w)
  /\ (NoDup (map _id (store w)) -> NoDup (map _id records))
  /\ (forall r, In r records -> available r <> None).
Proof.
  unfold getNextBatch, getCollection. intros H.
  apply then_resolved in H. destruct H as [now [wa [H1 H]]].
  apply then_resolved in H. destruct H as [u [wb [H2 H]]].
  apply then_resolved in H. destruct H as [fetched [wc [H3 H]]].
  unfold Date_now in H1. injection H1 as <- <-.
  apply db_call_store in H2. simpl in H2.
  apply collection_find_resolved in H3. destruct H3 as [Hf H3].
  rewrite H2 in Hf, H3.
  destruct (prioritizeRecords_batch host opts fetched wc)
    as [batch [w2 [E [Hs [Hi [Hn Ha]]]]]].
  rewrite E in H. injection H as <- <-.
  assert (Hin : incl fetched (store w)).
  { intros x Hx. rewrite Hf in Hx. apply limit_incl in Hx.
    apply (Permutation_in _ (sort_receivedDate_perm _)) in Hx.
    apply filter_In in Hx. tauto. }
  split; [congruence|]. split; [intros x Hx; apply Hin, Hi, Hx|]. split.
  - intros Hnd. apply Hn. rewrite Hf. apply NoDup_map_limit.
    eapply Permutation_NoDup.
    + apply Permutation_map. symmetry. apply sort_receivedDate_perm.
    + apply NoDup_map_filter. exact Hnd.
  - apply Ha. intros Hl r Hr. rewrite Hf in Hr. apply limit_incl in Hr.
    apply (Permutation_in _ (sort_receivedDate_perm _)) in Hr.
    apply filter_In in Hr. destruct Hr as [_ Hm]. rewrite Hl in Hm.
    simpl in Hm. apply andb_true_iff in Hm. destruct Hm as [_ Hm].
    eapply date_lte_available. exact Hm.
Qed.

Lemma unchanged_refl s : unchanged s s.
Proof. reflexivity. Qed.

Lemma unchanged_trans s1 s2 s3 :
  unchanged s1 s2 -> unchanged s2 s3 -> unchanged s1 s3.
Proof. unfold unchanged. congruence. Qed.

Lemma fresh_id_fresh (s : list QueueRecord) : ~ In (fresh_id s) (map _id s).
Proof.
  intros H. unfold fresh_id in H.
  assert (Hall : Forall (fun k => (k <= list_max (map _id s))%nat) (map _id s)).
  { apply list_max_le. apply Nat.le_refl. }
  rewrite Forall_forall in Hall. apply Hall in H. lia.
Qed.

Section Invariant.

Variable host : Host.
Variable opts : Opts.

Lemma processNextBatch_store_ok (w : World) :
  store_ok (store w) ->
  store_ok (store (snd (processNextBatch host opts w))).
Proof.
  intros Hok.
  assert (E : store (snd (processNextBatch host opts w))
              = store (snd (batch_chain host opts w))).
  { rewrite processNextBatch_catch.
    destruct (batch_chain host opts w) as [[u|[|t]] w1]; reflexivity. }
  rewrite E. clear E. unfold batch_chain. unfold then_ at 1.
  pose proof (@keeps_call_onPreHook host opts unchanged unchanged_refl
                unchanged_trans w) as H0.
  destruct (call_onPreHook opts w) as [[u|err] w0]; simpl in H0;
    unfold unchanged in H0; cbv beta iota; [|simpl; rewrite H0; exact Hok].
  unfold then_ at 1.
  pose proof (@keeps_getNextBatch host opts unchanged unchanged_refl
                unchanged_trans w0) as H1.
  destruct (getNextBatch host opts w0) as [[records|err] w1] eqn:Eb;
    simpl in H1; unfold unchanged in H1; cbv beta iota;
    [|simpl; rewrite H1, H0; exact Hok].
  apply getNextBatch_batch in Eb. destruct Eb as [Hs [Hi [Hn Ha]]].
  assert (Hok1 : store_ok (store w1)) by (rewrite H1, H0; exact Hok).
  assert (Hmap : store_ok
                   (store (snd (mapSeries (processRecord host opts) records w1)))).
  { apply mapSeries_store_ok.
    - apply Hn. rewrite <- H1. apply Hok1.
    - exact Hok1.
    - intros r Hr d Hd Hid.
      assert (d = r).
      { apply (NoDup_map_inj _id (store w1)); [apply Hok1|exact Hd| |exact Hid].
        rewrite H1. apply Hi. exact Hr. }
      subst d. apply Ha. exact Hr. }
  unfold then_.
  destruct (mapSeries (processRecord host opts) records w1) as [[ys|err] w2];
    exact Hmap.
Qed.

Lemma enqueue_store_ok (payload : string) (w : World) :
  store_ok (store w) -> store_ok (store (snd (enqueue host payload w))).
Proof.
  intros [Hwf Hnd]. unfold enqueue, insertNewRecord, collection_insert,
    getCollection. unfold_promise.
  destruct (faults host (calls w)); simpl; [split; assumption|].
  destruct (faults host (S (calls w))); simpl; [split; assumption|].
  split.
  - apply Forall_app. split; [exact Hwf|]. constructor; [|constructor].
    simpl. discriminate.
  - rewrite map_app. simpl.
    eapply Permutation_NoDup; [apply Permutation_cons_append|].
    constructor; [apply fresh_id_fresh|exact Hnd].
Qed.

Lemma cleanup_store_ok (w : World) :
  store_ok (store w) -> store_ok (store (snd (cleanup host opts w))).
Proof.
  intros [Hwf Hnd]. unfold cleanup, collection_remove, getCollection.
  unfold_promise.
  destruct (faults host (calls w)); simpl; [split; assumption|].
  destruct (faults host (S (calls w))); simpl; [split; assumption|].
  split.
  - apply Forall_forall. intros x Hx. apply filter_In in Hx.
    rewrite Forall_forall in Hwf. apply Hwf. tauto.
  - apply NoDup_map_filter. exact Hnd.
Qed.

Lemma resetRecords_store_ok (recordIds : list nat) (w : World) :
  store_ok (store w) ->
  store_ok (store (snd (resetRecords host recordIds w))).
Proof.
  intros [Hwf Hnd]. unfold resetRecords, collection_update_multi,
    getCollection. unfold_promise.
  destruct (faults host (calls w)); simpl; [split; assumption|].
  destruct (faults host (S (calls w))); simpl; [split; assumption|].
  unfold update_all. split.
  - apply Forall_forall. intros x Hx. apply in_map_iff in Hx.
    destruct Hx as [d [<- Hd]]. rewrite Forall_forall in Hwf.
    destruct (matches (Q_id_in recordIds) d);
      [vm_compute; discriminate|apply Hwf; exact Hd].
  - rewrite map_map.
    replace (map _ (store w)) with (map _id (store w)); [exact Hnd|].
    apply map_ext. intros d.
    destruct (matches (Q_id_in recordIds) d); reflexivity.
Qed.

(** The record of an exhausted record after its notification. *)
Lemma processRecord_notified (record doc : QueueRecord) (w : World) :
  calm host ->
  (forall w0 r, onFailure opts w0 r <> HookFails JsUndefined) ->
  recordHasFailed opts record = true ->
  lookup (_id record) (store w) = Some doc ->
  exists doc',
    lookup (_id record) (store (snd (processRecord host opts record w)))
    = Some doc'
    /\ (status doc' = notified \/ status doc' = notifyFailure)
    /\ available doc' = available doc.
Proof.
  intros Hcalm Hhook Hex Hdoc. unfold processRecord. rewrite Hex.
  unfold notifyFailedRecord, collection_update, getCollection. unfold_promise.
  simpl.
  match goal with
  | |- context [onFailure opts ?w0 ?x] =>
      pose proof (Hhook w0 x) as Hne; destruct (onFailure opts w0 x) as [|[| |]]
  end; simpl; rewrite ?Hcalm; simpl; rewrite ?Hcalm; simpl.
  2: exfalso; apply Hne; reflexivity.
  all: fold (lookup (_id record)).
  - rewrite lookup_update_same by apply keeps_id_notified. rewrite Hdoc.
    eexists. split; [reflexivity|]. split; [left; reflexivity|reflexivity].
  - rewrite lookup_update_same by apply keeps_id_notifyFailure. rewrite Hdoc.
    eexists. split; [reflexivity|]. split; [right; reflexivity|reflexivity].
  - rewrite lookup_update_same by apply keeps_id_notifyFailure. rewrite Hdoc.
    eexists. split; [reflexivity|]. split; [right; reflexivity|reflexivity].
Qed.

End Invariant.

(** *** The notifier and the [available] field *)

Lemma lookup_id (id : nat) (s : list QueueRecord) (doc : QueueRecord) :
  lookup id s = Some doc -> _id doc = id.
Proof.
  unfold lookup. intros H. apply find_some in H. destruct H as [_ H].
  simpl in H. apply Nat.eqb_eq. exact H.
Qed.

Lemma keeps_available_immediate reason :
  keeps_available (immediate_modifier reason).
Proof. intros x. split; reflexivity. Qed.

Lemma keeps_available_notified now : keeps_available (notified_modifier now).
Proof. intros x. split; reflexivity. Qed.

Lemma keeps_available_notifyFailure now err :
  keeps_available (notifyFailure_modifier now err).
Proof. intros x. split; reflexivity. Qed.

Lemma not_notifying_success now info :
  not_notifying (success_modifier now info).
Proof.
  intros x. split; [apply keeps_id_success|].
  destruct info; intros [H|H]; discriminate H.
Qed.

Lemma not_notifying_failure d1 d2 delay reason :
  not_notifying (failure_modifier d1 d2 delay reason).
Proof. intros x. split; [reflexivity|]. intros [H|H]; discriminate H. Qed.

Lemma not_notifying_skip d1 d2 delay :
  not_notifying (skip_modifier d1 d2 delay).
Proof. intros x. split; [reflexivity|]. intros [H|H]; discriminate H. Qed.

(** The notifier, on any record and whatever the host does: it writes
    nothing, or one update that keeps [available]. *)
Lemma notifyFailedRecord_available (host : Host) (opts : Opts)
    (record : option QueueRecord) (w : World) :
  store (snd (notifyFailedRecord host opts record w)) = store w
  \/ exists r f,
       record = Some r /\ keeps_available f
       /\ store (snd (notifyFailedRecord host opts record w))
          = update_first (Q_id (_id r)) f (store w).
Proof.
  pose proof keeps_available_notified as K1.
  pose proof keeps_available_notifyFailure as K2.
  unfold notifyFailedRecord, collection_update, getCollection.
  unfold_promise. destruct record as [r|]; split_cases host opts.
  all: try (left; reflexivity).
  all: right; eexists r, _; split; [reflexivity|]; split; [|reflexivity]; auto.
Qed.

(** One record, whatever the host, the handler and the hooks do. *)
Lemma processRecord_available (host : Host) (opts : Opts)
    (record : QueueRecord) (w : World) :
  available_effect (_id record) (store w)
    (store (snd (processRecord host opts record w))).
Proof.
  pose proof not_notifying_success as N1.
  pose proof not_notifying_failure as N2.
  pose proof not_notifying_skip as N3.
  pose proof keeps_available_immediate as K0.
  unfold processRecord, on_rejection, processSuccess,
    processFailure, processSkip, failImmediately, call_onProcess,
    handler_outcome, collection_update, collection_findOne, getCollection.
  destruct (recordHasFailed opts record).
  { destruct (notifyFailedRecord_available host opts (Some record) w)
      as [E|[r [f [Er [Hf E]]]]].
    - left. exact E.
    - injection Er as <-. right. left. exists f. auto. }
  unfold_promise. split_cases host opts.
  all: try (left; reflexivity).
  all: try (right; right; right; eexists; split; [|reflexivity]; solve [auto]).
  all: try (simpl; right; left; eexists; split; [|reflexivity]; solve [auto]).
  match goal with
  | |- context [notifyFailedRecord host opts ?o ?w1] =>
      destruct (notifyFailedRecord_available host opts o w1)
        as [E|[r [f [Er [Hf E]]]]]; rewrite E; simpl
  end.
  - right. left. eexists. split; [|reflexivity]. auto.
  - right. right. left.
    exists (immediate_modifier (stack_or_self reason)), f.
    split; [apply K0|]. split; [exact Hf|].
    apply find_some in Er. destruct Er as [_ Er]. simpl in Er.
    apply Nat.eqb_eq in Er. rewrite Er. reflexivity.
Qed.

(** After such an effect, a record found under one of the notifier's
    statuses has the [available] it had. *)
Lemma available_effect_terminal (id : nat) (s s' : list QueueRecord) :
  available_effect id s s' ->
  forall j doc doc',
    lookup j s = Some doc -> lookup j s' = Some doc' ->
    terminal doc' -> available doc' = available doc.
Proof.
  assert (Hk : forall f s0 j d',
             (forall x, _id (f x) = _id x) ->
             lookup j (update_first (Q_id id) f s0) = Some d' ->
             (j <> id /\ lookup j s0 = Some d')
             \/ (j = id /\ exists d, lookup j s0 = Some d /\ d' = f d)).
  { intros f s0 j d' Hf H. destruct (Nat.eq_dec j id) as [->|Hne].
    - right. split; [reflexivity|].
      rewrite lookup_update_same in H by exact Hf.
      destruct (lookup id s0) as [d|]; [|discriminate H].
      injection H as <-. exists d. auto.
    - left. split; [exact Hne|].
      rewrite lookup_update_other in H by assumption. exact H. }
  intros [->|[[f [Hf ->]]|[[f [g [Hf [Hg ->]]]]|[f [Hf ->]]]]] j doc doc' H H' Ht.
  - congruence.
  - apply Hk in H'; [|intros x; apply Hf].
    destruct H' as [[_ H']|[_ [d [Hd ->]]]]; [congruence|].
    rewrite H in Hd. injection Hd as <-. apply Hf.
  - apply Hk in H'; [|intros x; apply Hg].
    destruct H' as [[_ H']|[_ [d1 [H1 ->]]]].
    + apply Hk in H'; [|intros x; apply Hf].
      destruct H' as [[_ H']|[_ [d [Hd ->]]]]; [congruence|].
      rewrite H in Hd. injection Hd as <-. apply Hf.
    + apply Hk in H1; [|intros x; apply Hf].
      destruct H1 as [[_ H1]|[_ [d [Hd ->]]]].
      * rewrite H in H1. injection H1 as <-. apply Hg.
      * rewrite H in Hd. injection Hd as <-.
        destruct (Hg (f doc)) as [_ E]. rewrite E. apply Hf.
  - apply Hk in H'; [|intros x; apply Hf].
    destruct H' as [[_ H']|[_ [d [Hd ->]]]]; [congruence|].
    exfalso. apply (proj2 (Hf d)). exact Ht.
Qed.

Section Notifier.

Variable host : Host.
Variable opts : Opts.
Hypothesis Hcalm : calm host.
Hypothesis Hhook : forall w0 r, onFailure opts w0 r <> HookFails JsUndefined.

Lemma failImmediately_run (record doc : QueueRecord) (err : Rejection)
    (w : World) :
  lookup (_id record) (store w) = Some doc ->
  failImmediately host opts record err w
  = notifyFailedRecord host opts
      (Some (immediate_modifier (stack_or_self (getFailReason err)) doc))
      (after w 0 3
         (update_first (Q_id (_id record))
            (immediate_modifier (stack_or_self (getFailReason err))) (store w))
         [EvUpdate (_id record)]).
Proof.
  intros Hdoc. unfold failImmediately.
  unfold then_ at 1, getCollection, db_call. rewrite Hcalm.
  unfold then_ at 1. rewrite collection_update_calm by exact Hcalm.
  unfold then_ at 1, collection_findOne, then_ at 1, db_call. simpl calls.
  rewrite Hcalm. unfold then_ at 1, get_world, resolve. simpl store.
  fold (lookup (_id record)
          (update_first (Q_id (_id record))
             (immediate_modifier (stack_or_self (getFailReason err))) (store w))).
  rewrite lookup_update_same by apply keeps_id_immediate.
  rewrite Hdoc. reflexivity.
Qed.

(** The notifier on any record, when the store does not fail. *)
Lemma notifyFailedRecord_notified (record doc : QueueRecord) (w : World) :
  lookup (_id record) (store w) = Some doc ->
  exists doc',
    lookup (_id record)
      (store (snd (notifyFailedRecord host opts (Some record) w)))
    = Some doc'
    /\ (status doc' = notified \/ status doc' = notifyFailure)
    /\ available doc' = available doc.
Proof.
  intros Hdoc.
  unfold notifyFailedRecord, collection_update, getCollection. unfold_promise.
  simpl.
  match goal with
  | |- context [onFailure opts ?w0 ?x] =>
      pose proof (Hhook w0 x) as Hne; destruct (onFailure opts w0 x) as [|[| |]]
  end; simpl; rewrite ?Hcalm; simpl; rewrite ?Hcalm; simpl.
  2: exfalso; apply Hne; reflexivity.
  all: fold (lookup (_id record)).
  - rewrite lookup_update_same by apply keeps_id_notified. rewrite Hdoc.
    eexists. split; [reflexivity|]. split; [left; reflexivity|reflexivity].
  - rewrite lookup_update_same by apply keeps_id_notifyFailure. rewrite Hdoc.
    eexists. split; [reflexivity|]. split; [right; reflexivity|reflexivity].
  - rewrite lookup_update_same by apply keeps_id_notifyFailure. rewrite Hdoc.
    eexists. split; [reflexivity|]. split; [right; reflexivity|reflexivity].
Qed.

(** The record that the handler failed for good, after its
    notification. *)
Lemma processRecord_failed_for_good (record doc : QueueRecord)
    (reason : JsValue) (w : World) :
  recordHasFailed opts record = false ->
  onProcess opts (at_call w record) record = Throws (FailSignal reason) ->
  lookup (_id record) (store w) = Some doc ->
  exists doc',
    lookup (_id record) (store (snd (processRecord host opts record w)))
    = Some doc'
    /\ (status doc' = notified \/ status doc' = notifyFailure)
    /\ available doc' = available doc.
Proof.
  intros Hfresh Hthrow Hdoc.
  pose proof (lookup_id _ _ Hdoc) as Hid.
  rewrite (@processRecord_thrown host opts record w _ Hfresh Hthrow).
  change (on_rejection host opts record (Raised (FailSignal reason)))
    with (failImmediately host opts record (Raised (FailSignal reason))).
  assert (Hdoc0 : lookup (_id record) (store (at_call w record)) = Some doc)
    by exact Hdoc.
  rewrite (@failImmediately_run record doc (Raised (FailSignal reason))
             (at_call w record) Hdoc0).
  simpl getFailReason.
  set (doc1 := immediate_modifier (stack_or_self reason) doc).
  assert (Hid1 : _id doc1 = _id record) by exact Hid.
  match goal with
  | |- context [notifyFailedRecord host opts (Some doc1) ?w1] =>
      destruct (@notifyFailedRecord_notified doc1 doc1 w1) as [doc' [H1 [H2 H3]]]
  end.
  { rewrite Hid1. simpl store.
    rewrite lookup_update_same by apply keeps_id_immediate.
    rewrite Hdoc. reflexivity. }
  rewrite Hid1 in H1. exists doc'. split; [exact H1|]. split; [exact H2|].
  rewrite H3. reflexivity.
Qed.

End Notifier.

(** C6, as the code has it: after every history of operations of an
    instance, started on an empty collection, identities are unique, every
    record with status [received], [failed] or [skipped] carries an
    [available] date and every [processed] record carries none; the
    transitions to [notified] and [notifyFailure] leave the record's
    [available] as it was, on both routes to the notifier: for a record
    out of retries, and for a record the handler fails for good (marked
    failed, read again, then notified); so does the notifier called on
    any record; and, whatever the store, the clock, the handler and the
    hooks do, a record found under [notified] or [notifyFailure] after a
    record was processed has the [available] it had before. *)
Theorem available_invariant (host : Host) (opts : Opts) (ops : list Operation) :
  store_ok (store (run_operations host opts ops world0))
  /\ (forall r,
        In r (store (run_operations host opts ops world0)) ->
        match status r with
        | received | failed | skipped => available r <> None
        | processed => available r = None
        | notified | notifyFailure => True
        end)
  /\ (forall w record doc,
        calm host ->
        (forall w0 r, onFailure opts w0 r <> HookFails JsUndefined) ->
        recordHasFailed opts record = true ->
        lookup (_id record) (store w) = Some doc ->
        exists doc',
          lookup (_id record) (store (snd (processRecord host opts record w)))
          = Some doc'
          /\ (status doc' = notified \/ status doc' = notifyFailure)
          /\ available doc' = available doc)
  /\ (forall w record doc reason,
        calm host ->
        (forall w0 r, onFailure opts w0 r <> HookFails JsUndefined) ->
        recordHasFailed opts record = false ->
        onProcess opts (at_call w record) record = Throws (FailSignal reason) ->
        lookup (_id record) (store w) = Some doc ->
        exists doc',
          lookup (_id record) (store (snd (processRecord host opts record w)))
          = Some doc'
          /\ (status doc' = notified \/ status doc' = notifyFailure)
          /\ available doc' = available doc)
  /\ (forall w record doc,
        calm host ->
        (forall w0 r, onFailure opts w0 r <> HookFails JsUndefined) ->
        lookup (_id record) (store w) = Some doc ->
        exists doc',
          lookup (_id record)
            (store (snd (notifyFailedRecord host opts (Some record) w)))
          = Some doc'
          /\ (status doc' = notified \/ status doc' = notifyFailure)
          /\ available doc' = available doc)
  /\ (forall w record j doc doc',
        lookup j (store w) = Some doc ->
        lookup j (store (snd (processRecord host opts record w))) = Some doc' ->
        status doc' = notified \/ status doc' = notifyFailure ->
        available doc' = available doc)
  /\ (forall w record j doc doc',
        lookup j (store w) = Some doc ->
        lookup j (store (snd (notifyFailedRecord host opts record w)))
        = Some doc' ->
        available doc' = available doc).
Proof.
  assert (Hinv : forall w, store_ok (store w) ->
                           store_ok (store (run_operations host opts ops w))).
  { unfold run_operations. induction ops as [|op l IH]; intros w Hok; simpl.
    - exact Hok.
    - apply IH. destruct op; simpl.
      + apply enqueue_store_ok. exact Hok.
      + apply processNextBatch_store_ok. exact Hok.
      + apply cleanup_store_ok. exact Hok.
      + apply resetRecords_store_ok. exact Hok. }
  assert (H0 : store_ok (store world0)) by (split; constructor).
  specialize (Hinv world0 H0). split; [exact Hinv|].
  split; [|split; [|split; [|split; [|split]]]].
  - intros r Hr. destruct Hinv as [Hwf _]. rewrite Forall_forall in Hwf.
    apply (Hwf r Hr).
  - intros w record doc Hcalm Hhook Hex Hdoc.
    apply processRecord_notified; assumption.
  - intros w record doc reason Hcalm Hhook Hfresh Hthrow Hdoc.
    apply processRecord_failed_for_good with (reason := reason); assumption.
  - intros w record doc Hcalm Hhook Hdoc.
    apply notifyFailedRecord_notified; assumption.
  - intros w record j doc doc' Hdoc Hdoc' Ht.
    exact (available_effect_terminal (processRecord_available host opts record w)
             j Hdoc Hdoc' Ht).
  - intros w record j doc doc' Hdoc Hdoc'.
    destruct (notifyFailedRecord_available host opts record w)
      as [E|[r [f [_ [Hf E]]]]]; rewrite E in Hdoc'.
    + congruence.
    + destruct (Nat.eq_dec j (_id r)) as [->|Hne].
      * rewrite lookup_update_same in Hdoc' by (intros x; apply Hf).
        rewrite Hdoc in Hdoc'. injection Hdoc' as <-. apply Hf.
      * rewrite lookup_update_other in Hdoc'
          by (try (intros x; apply Hf); assumption).
        congruence.
Qed.

Lemma available_invariant_witness :
  (exists doc',
     lookup 0 (store (snd (processRecord host_1000
                             (opts_with 2 true always_throws) exhausted
                             (world_of [exhausted]))))
     = Some doc'
     /\ (status doc' = notified \/ status doc' = notifyFailure)
     /\ available doc' = available exhausted)
  /\ (exists doc',
        lookup 0 (store (snd (processRecord host_1000
                                (opts_with 2 true fails_for_good) failed_once
                                (world_of [failed_once]))))
        = Some doc'
        /\ (status doc' = notified \/ status doc' = notifyFailure)
        /\ available doc' = available failed_once).
Proof.
  split.
  - refine (proj1 (proj2 (proj2 (@available_invariant host_1000
                                   (opts_with 2 true always_throws) [])))
              (world_of [exhausted]) exhausted exhausted _ _ _ _).
    + intros k. reflexivity.
    + intros w0 r H. discriminate H.
    + reflexivity.
    + reflexivity.
  - refine (proj1 (proj2 (proj2 (proj2 (@available_invariant host_1000
                                          (opts_with 2 true fails_for_good) []))))
              (world_of [failed_once]) failed_once failed_once
              (JsString "bad data") _ _ _ _ _).
    + intros k. reflexivity.
    + intros w0 r H. discriminate H.
    + reflexivity.
    + reflexivity.
    + reflexivity.
Defined.

(** From the empty collection, with [retryLimit = 1] and a handler that
    always throws: a record is enqueued, fails in the first tick and is
    notified in the second; under its terminal status it still carries the
    [available] date its failure gave it. *)
Lemma notified_keeps_available_counterexample :
  map (fun r => (status r, available r))
    (store (run_operations host_ticking (opts_with 1 true always_throws)
              [Enqueue "x"; ProcessNextBatch; ProcessNextBatch] world0))
  = [(notified, Some (DateMs 52000))].
Proof. vm_compute. reflexivity. Qed.

(** ** Ticks that do not overlap *)

Lemma unsettled_app (l1 l2 : list Tick) :
  unsettled (l1 ++ l2) = unsettled l1 ++ unsettled l2.
Proof. apply filter_app. Qed.

Lemma unsettled_nth (l : list Tick) (i : nat) (t : Tick) :
  nth_error l i = Some t -> tick_settled t = false -> In t (unsettled l).
Proof.
  intros Hn Ht. apply filter_In. split; [eapply nth_error_In; exact Hn|].
  rewrite Ht. reflexivity.
Qed.

Lemma unsettled_set_nth (l : list Tick) (i : nat) (t t1 : Tick) :
  nth_error l i = Some t -> tick_settled t = false ->
  unsettled l = [t] ->
  unsettled (set_nth i t1 l) = if tick_settled t1 then [] else [t1].
Proof.
  revert i. induction l as [|x l IH]; intros [|i] Hn Ht Hu; simpl in *;
    try discriminate.
  - injection Hn as ->. unfold unsettled in *. simpl in *. rewrite Ht in Hu.
    simpl in Hu. injection Hu as Hu. rewrite Hu.
    destruct (tick_settled t1); reflexivity.
  - unfold unsettled in *. simpl in *.
    destruct (tick_settled x); simpl in *.
    + apply IH; assumption.
    + injection Hu as -> Hu. exfalso.
      pose proof (unsettled_nth l i Hn Ht) as Hin. unfold unsettled in Hin.
      rewrite Hu in Hin. exact Hin.
Qed.

Lemma guarded_step_inv (host : Host) (opts : Opts) (a : Action) (s : Instance) :
  guard_inv s -> guard_inv (guarded_step host opts a s).
Proof.
  intros Hinv. destruct a as [|i]; unfold guarded_step.
  - destruct Hinv as [[Hr Hu]|[Hr [t Hu]]]; rewrite Hr; unfold guard_inv;
      cbn [running invocations].
    + right. split; [reflexivity|]. exists TickPreHook.
      rewrite unsettled_app, Hu. reflexivity.
    + right. split; [reflexivity|]. exists t.
      rewrite unsettled_app, Hu. reflexivity.
  - destruct (nth_error (invocations s) i) as [t|] eqn:Hn; [|exact Hinv].
    destruct (tick_settled t) eqn:Ht; [exact Hinv|].
    pose proof (unsettled_nth _ _ Hn Ht) as Hin.
    destruct Hinv as [[Hr Hu]|[Hr [t0 Hu]]].
    { rewrite Hu in Hin. destruct Hin. }
    rewrite Hu in Hin. destruct Hin as [->|[]].
    destruct (tick_step host opts t (world s)) as [t1 w1].
    unfold guard_inv. cbn [running invocations].
    rewrite (unsettled_set_nth _ _ t1 Hn Ht Hu), Hr.
    destruct (tick_settled t1).
    + left. auto.
    + right. split; [reflexivity|]. exists t1. reflexivity.
Qed.

Lemma guarded_run_inv (host : Host) (opts : Opts) (acts : list Action)
    (s : Instance) :
  guard_inv s -> guard_inv (guarded_run host opts acts s).
Proof.
  unfold guarded_run. revert s. induction acts as [|a l IH]; intros s H; simpl.
  - exact H.
  - apply IH. apply guarded_step_inv. exact H.
Qed.

(** C9, for the guard as the specification describes it: however calls
    and their stages are interleaved, at most one tick is under way; and a
    call made while one is under way changes nothing in the world, settles
    at once, and never takes a step, so that it neither selects nor
    processes. *)
Theorem guarded_ticks_do_not_overlap (host : Host) (opts : Opts) (w : World)
    (acts : list Action) :
  (List.length
     (unsettled (invocations (guarded_run host opts acts
                                (mkInstance w false [])))) <= 1)%nat
  /\ (running (guarded_run host opts acts (mkInstance w false [])) = true
      <-> unsettled (invocations (guarded_run host opts acts
                                    (mkInstance w false []))) <> [])
  /\ (unsettled (invocations (guarded_run host opts acts
                                (mkInstance w false []))) <> [] ->
      guarded_step host opts Invoke
        (guarded_run host opts acts (mkInstance w false []))
      = mkInstance
          (world (guarded_run host opts acts (mkInstance w false [])))
          true
          (invocations (guarded_run host opts acts (mkInstance w false []))
           ++ [TickSettled (Resolved tt)]))
  /\ (forall s i outcome,
        nth_error (invocations s) i = Some (TickSettled outcome) ->
        guarded_step host opts (Advance i) s = s).
Proof.
  assert (Hinv : guard_inv (guarded_run host opts acts (mkInstance w false []))).
  { apply guarded_run_inv. left. split; reflexivity. }
  set (s := guarded_run host opts acts (mkInstance w false [])) in *.
  destruct Hinv as [[Hr Hu]|[Hr [t Hu]]]; rewrite Hr, Hu.
  - split; [simpl; lia|]. split; [split; [discriminate|congruence]|].
    split; [congruence|].
    intros s' i outcome Hn. simpl. rewrite Hn. reflexivity.
  - split; [simpl; lia|]. split; [split; [discriminate|reflexivity]|].
    split.
    + intros _. simpl. rewrite Hr. reflexivity.
    + intros s' i outcome Hn. simpl. rewrite Hn. reflexivity.
Qed.

(** The two schedulers on the same history: a call, its selection, a
    second call while the first has its batch in hand, and two steps of
    the second.  Under the guard the second call does nothing; the bare
    [processNextBatch] selects a second time. *)
Example second_call_under_guard :
  trace (world (guarded_run host_1000 (opts_with 5 true always_returns)
                  [Invoke; Advance 0; Advance 0; Invoke; Advance 1; Advance 1]
                  (mkInstance (world_of [rec_A; rec_C]) false [])))
  = [EvFind].
Proof. vm_compute. reflexivity. Qed.

Example second_call_without_guard :
  trace (world (bare_run host_1000 (opts_with 5 true always_returns)
                  [Invoke; Advance 0; Advance 0; Invoke; Advance 1; Advance 1]
                  (mkInstance (world_of [rec_A; rec_C]) false [])))
  = [EvFind; EvFind].
Proof. vm_compute. reflexivity. Qed.

(** ** The stages of a tick add up to [processNextBatch] *)

Section TickRefinement.

Variable host : Host.
Variable opts : Opts.

Lemma tick_run_settled (fuel : nat) (outcome : Settled unit) (w : World) :
  tick_run host opts fuel (TickSettled outcome) w = (TickSettled outcome, w).
Proof. induction fuel as [|f IH]; simpl; [reflexivity|exact IH]. Qed.

Lemma tick_run_process (records : list QueueRecord) (w : World) (fuel : nat) :
  (List.length records < fuel)%nat ->
  tick_run host opts fuel (TickProcess records) w
  = (tick_of (fst (mapSeries (processRecord host opts) records w)),
     snd (mapSeries (processRecord host opts) records w)).
Proof.
  revert w fuel. induction records as [|r l IH]; intros w [|fuel] Hlt;
    simpl in Hlt; try lia.
  - simpl. apply tick_run_settled.
  - cbn [tick_run tick_step mapSeries]. unfold then_.
    destruct (processRecord host opts r w) as [[y|err] w1].
    + rewrite IH by lia.
      destruct (mapSeries (processRecord host opts) l w1) as [[ys|err] w2];
        reflexivity.
    + apply tick_run_settled.
Qed.

(** Run to its end, the tick is the promise of [processNextBatch]. *)
Lemma tick_run_processNextBatch (w : World) :
  exists n, forall fuel, (n <= fuel)%nat ->
    tick_run host opts fuel TickPreHook w
    = (TickSettled (fst (processNextBatch host opts w)),
       snd (processNextBatch host opts w)).
Proof.
  assert (Hsettle : forall err : Rejection,
             settle err
             = TickSettled (if negb (is_STOP_PROCESSING err)
                            then Rejected err else Resolved tt))
    by reflexivity.
  unfold processNextBatch, catch_, batch_chain, then_.
  destruct (call_onPreHook opts w) as [[u|err] w0] eqn:E0.
  2:{ exists 1%nat. intros [|fuel] H; [lia|].
      cbn [tick_run tick_step]. rewrite E0. cbv beta iota. unfold settle.
      rewrite tick_run_settled. destruct err; reflexivity. }
  destruct (getNextBatch host opts w0) as [[records|err] w1] eqn:E1.
  2:{ exists 2%nat. intros [|[|fuel]] H; try lia.
      cbn [tick_run tick_step]. rewrite E0. cbn [tick_run tick_step].
      rewrite E1. cbv beta iota. unfold settle.
      rewrite tick_run_settled. destruct err; reflexivity. }
  exists (3 + List.length records)%nat. intros [|[|fuel]] H; try lia.
  cbn [tick_run tick_step]. rewrite E0. cbn [tick_run tick_step]. rewrite E1.
  cbv beta iota. rewrite tick_run_process by lia.
  destruct (mapSeries (processRecord host opts) records w1) as [[ys|err] w2];
    [reflexivity|]. simpl. destruct err; reflexivity.
Qed.

End TickRefinement.

(** ** Immediate failure, on an example *)

(** The handler throws Fail("bad data"): the record is marked failed with
    the reason, handed to the notifier once, and ends up notified. *)
Example immediate_failure_is_notified :
  (map (fun r => (status r, immediateFailure r, failureReason r, retryCount r))
     (store (snd (processNextBatch host_1000 (opts_with 5 true fails_for_good)
                    (world_of [rec_C])))),
   trace (snd (processNextBatch host_1000 (opts_with 5 true fails_for_good)
                 (world_of [rec_C]))))
  = ([(notified, Some true, Some (JsString "bad data"), None)],
     [EvFind; EvOnProcess 2; EvUpdate 2; EvOnFailure (Some 2%nat); EvUpdate 2]).
Proof. vm_compute. reflexivity. Qed.
